(** * L3++ (l3pp): logger hierarchy, entry fan-out and formatters

    A shallow embedding of the templated logging core
    ([basic_logger], [basic_log_stream], [basic_stream_sink],
    [basic_formatter], [basic_field], [basic_template_formatter])
    together with the properties of the design document that can be
    settled on it.

    Conventions of the embedding:
    - [std::shared_ptr] handles are addresses ([nat]) into a store; two
      handles denote the identical instance iff the addresses are equal;
    - the function-local statics ([root_logger], the map of
      [detail::GetLoggers]) are fields of the program state [World];
    - output streams are modelled by their buffer and the three
      formatting attributes the code touches (width, fill, adjustment);
      what the sinks write is collected, in order, in the [output] of
      the state;
    - undefined behaviour (dereferencing or offsetting a null pointer, a
      call through a handle that designates no instance) is the result
      [None];
    - the recursions along parent handles and along names take a bound
      on their depth and yield [None] beyond it; the lemmas show that in
      the states the interface can reach they stay within the bound and
      return. *)

From Stdlib Require Import ZArith NArith String Ascii List Lia DecimalString.
From stdpp Require Import gmap strings list.

Local Open Scope Z_scope.

(** ** Log levels (l3pp.h) *)

Inductive LogLevel : Set :=
  | TRACE | DEBUG | INFO | WARN | ERR | FATAL | OFF | INHERIT.

(** [DEFAULT = WARN] and [ALL = TRACE] are aliases inside the enum. *)
Definition DEFAULT : LogLevel := WARN.
Definition ALL : LogLevel := TRACE.

(** The enumerator values, in declaration order. *)
Definition level_value (l : LogLevel) : Z :=
  match l with
  | TRACE => 0 | DEBUG => 1 | INFO => 2 | WARN => 3
  | ERR => 4 | FATAL => 5 | OFF => 6 | INHERIT => 7
  end.

(** The built-in comparisons of the scoped enumeration. *)
Definition level_lt (a b : LogLevel) : bool := level_value a <? level_value b.
Definition level_le (a b : LogLevel) : bool := level_value a <=? level_value b.
Definition level_ge (a b : LogLevel) : bool := level_value b <=? level_value a.

#[global] Instance LogLevel_eq_dec : EqDecision LogLevel.
Proof. solve_decision. Defined.

(** ** Strings *)

(** The line feed character ['\n']. *)
Definition LF : ascii := ascii_of_nat 10.

(** [std::string::rfind(c)] and [strrchr(s, c)]: the index of the last
    occurrence of [c], [None] standing for [npos], respectively for the
    null pointer. *)
Fixpoint rfind (s : string) (c : ascii) : option nat :=
  match s with
  | EmptyString => None
  | String a s' =>
      match rfind s' c with
      | Some n => Some (S n)
      | None => if decide (a = c) then Some 0%nat else None
      end
  end.

Definition strrchr (s : string) (c : ascii) : option nat := rfind s c.

(** [name.substr(0, n)]. *)
Definition substr0 (s : string) (n : nat) : string := String.substring 0 n s.

(** The C string that starts [n] characters into [s] (pointer [s + n]). *)
Fixpoint c_str_from (n : nat) (s : string) : string :=
  match n, s with
  | O, _ => s
  | S n', String _ s' => c_str_from n' s'
  | S _, EmptyString => EmptyString
  end.

Fixpoint replicate_char (n : nat) (c : ascii) : string :=
  match n with
  | O => EmptyString
  | S n' => String c (replicate_char n' c)
  end.

(** Decimal rendering of integers by [operator<<]. *)
Definition dec_of_N (n : N) : string := NilZero.string_of_uint (N.to_uint n).
Definition dec_of_Z (z : Z) : string := NilZero.string_of_int (Z.to_int z).

(** ** Output streams *)

Inductive adjustfield : Set := adj_unset | adj_left | adj_right.

Record ostream : Type := mk_ostream {
  os_buf : string;
  os_width : Z;
  os_fill : ascii;
  os_adjust : adjustfield
}.

(** A freshly constructed [std::basic_stringstream]. *)
Definition new_stringstream : ostream :=
  {| os_buf := ""; os_width := 0; os_fill := " "%char; os_adjust := adj_unset |}.

Definition setw (n : Z) (os : ostream) : ostream :=
  {| os_buf := os_buf os; os_width := n; os_fill := os_fill os; os_adjust := os_adjust os |}.

Definition setfill (c : ascii) (os : ostream) : ostream :=
  {| os_buf := os_buf os; os_width := os_width os; os_fill := c; os_adjust := os_adjust os |}.

Definition std_left (os : ostream) : ostream :=
  {| os_buf := os_buf os; os_width := os_width os; os_fill := os_fill os; os_adjust := adj_left |}.

Definition std_right (os : ostream) : ostream :=
  {| os_buf := os_buf os; os_width := os_width os; os_fill := os_fill os; os_adjust := adj_right |}.

(** Field padding of a formatted insertion: the fill character is
    repeated up to the current width, after the text when the adjustment
    is [left] and before it otherwise; nothing is cut. *)
Definition padded (os : ostream) (s : string) : string :=
  let pad := replicate_char (Z.to_nat (os_width os - Z.of_nat (String.length s))) (os_fill os) in
  match os_adjust os with
  | adj_left => s +:+ pad
  | _ => pad +:+ s
  end.

(** [os << s] for a character sequence: pads, appends and resets the
    width to zero. *)
Definition put (s : string) (os : ostream) : ostream :=
  {| os_buf := os_buf os +:+ padded os s; os_width := 0;
     os_fill := os_fill os; os_adjust := os_adjust os |}.

(** Values that the code inserts into streams. *)
Inductive streamable : Type :=
  | SString (s : string)
  | SChar (c : ascii)
  | SInt (z : Z).

Definition text_of (v : streamable) : string :=
  match v with
  | SString s => s
  | SChar c => String c EmptyString
  | SInt z => dec_of_Z z
  end.

Definition insert_value (v : streamable) (os : ostream) : ostream := put (text_of v) os.

(** ** impl/logging.h: streaming a level *)

Definition stream_level (level : LogLevel) (os : ostream) : ostream :=
  match level with
  | TRACE => put "TRACE" os
  | DEBUG => put "DEBUG" os
  | INFO => put "INFO" os
  | WARN => put "WARN" os
  | ERR => put "ERROR" os
  | FATAL => put "FATAL" os
  | OFF => put "OFF" os
  | _ => put "???" os
  end.

Definition level_text (level : LogLevel) : string := os_buf (stream_level level new_stringstream).

(** ** context.h *)

(** Handles ([ptr<basic_logger>], [ptr<basic_sink>], and the plain
    pointer [basic_logger const*]) are addresses. *)
Abbreviation logger_ptr := nat (only parsing).
Abbreviation sink_ptr := nat (only parsing).

Record log_context : Type := mk_log_context {
  filename : string;
  line : N;
  funcname : string
}.

(** The default constructor [log_context()]. *)
Definition log_context_default : log_context :=
  {| filename := ""; line := 0%N; funcname := "" |}.

Record basic_log_entry : Type := mk_log_entry {
  entry_context : log_context;
  entry_timestamp : Z;
  entry_logger : logger_ptr;
  entry_level : LogLevel;
  entry_msg : string
}.

(** The two constructors; [now] is the value of
    [std::chrono::system_clock::now()] at the call. *)
Definition new_entry (now : Z) (context : log_context) (logger : logger_ptr)
    (level : LogLevel) : basic_log_entry :=
  {| entry_context := context; entry_timestamp := now; entry_logger := logger;
     entry_level := level; entry_msg := "" |}.

Definition new_entry_msg (now : Z) (context : log_context) (logger : logger_ptr)
    (level : LogLevel) (msg : string) : basic_log_entry :=
  {| entry_context := context; entry_timestamp := now; entry_logger := logger;
     entry_level := level; entry_msg := msg |}.

Definition set_msg (msg : string) (entry : basic_log_entry) : basic_log_entry :=
  {| entry_context := entry_context entry; entry_timestamp := entry_timestamp entry;
     entry_logger := entry_logger entry; entry_level := entry_level entry;
     entry_msg := msg |}.

(** ** logger.h: the logger node *)

Record basic_logger : Type := mk_logger {
  parent : option logger_ptr;
  name : string;
  level : LogLevel;
  sinks : list sink_ptr;
  additive : bool
}.

(** The private constructors [basic_logger()] and
    [basic_logger(name, parent)]. *)
Definition new_root : basic_logger :=
  {| parent := None; name := ""; level := DEFAULT; sinks := []; additive := true |}.

Definition new_logger (nm : string) (p : logger_ptr) : basic_logger :=
  {| parent := Some p; name := nm; level := INHERIT; sinks := []; additive := true |}.

(** ** formatter.h *)

Module Field.

Inductive t : Set :=
  | FileName | FilePath | Line | Function | LoggerName | Message
  | LogLevel | WallTime.

End Field.

Inductive Justification : Set := LEFT | RIGHT.

(** One element of the tuple of a template formatter: a [basic_field]
    with its template arguments, a [basic_time_field], or any other
    streamable value. *)
Inductive element : Type :=
  | basic_field (field : Field.t) (Width : Z) (j : Justification) (Fill : ascii)
  | basic_time_field (formatStr : string)
  | literal (t : streamable).

(** The default template arguments of [basic_field]. *)
Definition basic_field_default (field : Field.t) : element :=
  basic_field field 0 RIGHT " "%char.

Inductive formatter : Type :=
  | basic_formatter
  | basic_template_formatter (formatters : list element).

(** ** sink.h *)

(** A stream sink: its formatter and its level. What it writes to its
    stream is recorded in the output of the [World]. *)
Record basic_stream_sink : Type := mk_sink {
  sink_formatter : formatter;
  sink_level : LogLevel
}.

(** Both constructors of [basic_stream_sink], on top of [basic_sink()]. *)
Definition new_stream_sink : basic_stream_sink :=
  {| sink_formatter := basic_formatter; sink_level := ALL |}.

(** ** Program state *)

Record World : Type := mk_World {
  objs : list basic_logger;             (* logger instances, by address *)
  root_logger : option logger_ptr;      (* static of getRootLogger       *)
  loggers : gmap string logger_ptr;     (* static of detail::GetLoggers  *)
  sink_objs : list basic_stream_sink;   (* sink instances, by address    *)
  output : list (sink_ptr * string)     (* writes performed, in order    *)
}.

Definition initial_World : World :=
  {| objs := []; root_logger := None; loggers := ∅; sink_objs := []; output := [] |}.

Definition set_objs (h : list basic_logger) (w : World) : World :=
  {| objs := h; root_logger := root_logger w; loggers := loggers w;
     sink_objs := sink_objs w; output := output w |}.

Definition set_sink_objs (h : list basic_stream_sink) (w : World) : World :=
  {| objs := objs w; root_logger := root_logger w; loggers := loggers w;
     sink_objs := h; output := output w |}.

Definition write (s : sink_ptr) (text : string) (w : World) : World :=
  {| objs := objs w; root_logger := root_logger w; loggers := loggers w;
     sink_objs := sink_objs w; output := output w ++ [(s, text)] |}.

(** [std::map::emplace]: inserts unless the key is present. *)
Definition emplace (k : string) (v : logger_ptr) (m : gmap string logger_ptr) :
    gmap string logger_ptr :=
  match m !! k with
  | Some _ => m
  | None => <[k := v]> m
  end.

(** ** logger.h: members of [basic_logger] defined in the class *)

Definition with_level (lvl : LogLevel) (o : basic_logger) : basic_logger :=
  {| parent := parent o; name := name o; level := lvl; sinks := sinks o;
     additive := additive o |}.

Definition with_sinks (ss : list sink_ptr) (o : basic_logger) : basic_logger :=
  {| parent := parent o; name := name o; level := level o; sinks := ss;
     additive := additive o |}.

Definition with_additive (b : bool) (o : basic_logger) : basic_logger :=
  {| parent := parent o; name := name o; level := level o; sinks := sinks o;
     additive := b |}.

(** [addSink]: [sinks.push_back(sink)]. *)
Definition addSink (l : logger_ptr) (sink : sink_ptr) (w : World) : option World :=
  match objs w !! l with
  | None => None
  | Some o => Some (set_objs (<[l := with_sinks (sinks o ++ [sink]) o]> (objs w)) w)
  end.

(** [setLevel]: ignored for [INHERIT] on a logger without parent. *)
Definition setLevel (l : logger_ptr) (lvl : LogLevel) (w : World) : option World :=
  match objs w !! l with
  | None => None
  | Some o =>
      if bool_decide (lvl = INHERIT) && bool_decide (parent o = None) then Some w
      else Some (set_objs (<[l := with_level lvl o]> (objs w)) w)
  end.

(** [getLevel]: the recursion follows the parent handles; [fuel] bounds
    the number of hops, and a null parent under [INHERIT] is undefined. *)
Fixpoint getLevel_fuel (fuel : nat) (h : list basic_logger) (l : logger_ptr) :
    option LogLevel :=
  match fuel with
  | O => None
  | S fuel' =>
      match h !! l with
      | None => None
      | Some o =>
          if bool_decide (level o = INHERIT) then
            match parent o with
            | Some p => getLevel_fuel fuel' h p
            | None => None
            end
          else Some (level o)
      end
  end.

Definition getLevel (l : logger_ptr) (w : World) : option LogLevel :=
  getLevel_fuel (length (objs w)) (objs w) l.

Definition getName (l : logger_ptr) (w : World) : option string :=
  name <$> objs w !! l.

Definition getAdditive (l : logger_ptr) (w : World) : option bool :=
  additive <$> objs w !! l.

Definition setAdditive (l : logger_ptr) (b : bool) (w : World) : option World :=
  match objs w !! l with
  | None => None
  | Some o => Some (set_objs (<[l := with_additive b o]> (objs w)) w)
  end.

(** [getRootLogger]: the static is initialised by the first call. *)
Definition getRootLogger (w : World) : logger_ptr * World :=
  match root_logger w with
  | Some r => (r, w)
  | None =>
      let r := length (objs w) in
      (r, {| objs := objs w ++ [new_root]; root_logger := Some r;
             loggers := loggers w; sink_objs := sink_objs w; output := output w |})
  end.

(** ** impl/logger.h: [removeSink] and [getLogger] *)

(** [std::find] followed by [erase]: drops the first occurrence. *)
Fixpoint erase_first (sink : sink_ptr) (ss : list sink_ptr) : list sink_ptr :=
  match ss with
  | [] => []
  | s :: ss' => if decide (s = sink) then ss' else s :: erase_first sink ss'
  end.

Definition removeSink (l : logger_ptr) (sink : sink_ptr) (w : World) : option World :=
  match objs w !! l with
  | None => None
  | Some o => Some (set_objs (<[l := with_sinks (erase_first sink (sinks o)) o]> (objs w)) w)
  end.

(** Registration of a new logger: [new basic_logger(name, parent)]
    followed by [loggers.emplace(name, newLogger)]. *)
Definition register (nm : string) (p : logger_ptr) (w : World) : logger_ptr * World :=
  let newLogger := length (objs w) in
  (newLogger,
   {| objs := objs w ++ [new_logger nm p]; root_logger := root_logger w;
      loggers := emplace nm newLogger (loggers w);
      sink_objs := sink_objs w; output := output w |}).

(** [getLogger(name)]. The recursive call is on [name.substr(0, n)];
    [fuel] bounds the depth of the recursion. *)
Fixpoint getLogger_fuel (fuel : nat) (nm : string) (w : World) :
    option (logger_ptr * World) :=
  match fuel with
  | O => None
  | S fuel' =>
      if (String.length nm =? 0)%nat then Some (getRootLogger w)
      else
        match loggers w !! nm with
        | Some l => Some (l, w)
        | None =>
            let n := rfind nm "."%char in
            let parent_result :=
              match n with
              | None => Some (getRootLogger w)
              | Some n => getLogger_fuel fuel' (substr0 nm n) w
              end in
            match parent_result with
            | Some (p, w1) => Some (register nm p w1)
            | None => None
            end
        end
  end.

Definition getLogger (nm : string) (w : World) : option (logger_ptr * World) :=
  getLogger_fuel (S (String.length nm)) nm w.

(** ** sink.h: creation and configuration of sinks *)

(** [basic_stream_sink::create]. *)
Definition create (w : World) : sink_ptr * World :=
  (length (sink_objs w), set_sink_objs (sink_objs w ++ [new_stream_sink]) w).

Definition setFormatter (s : sink_ptr) (f : formatter) (w : World) : option World :=
  match sink_objs w !! s with
  | None => None
  | Some o =>
      Some (set_sink_objs
              (<[s := {| sink_formatter := f; sink_level := sink_level o |}]> (sink_objs w)) w)
  end.

(** The private [basic_stream_sink::setLevel]. *)
Definition sink_setLevel (s : sink_ptr) (lvl : LogLevel) (w : World) : option World :=
  match sink_objs w !! s with
  | None => None
  | Some o =>
      Some (set_sink_objs
              (<[s := {| sink_formatter := sink_formatter o; sink_level := lvl |}]> (sink_objs w)) w)
  end.

(** ** Build and platform parameters

    Whether [_WIN32] is defined, the value of the static in
    [detail::GetStartTime], the number of clock ticks in a millisecond,
    and the text that [std::put_time] produces for a pattern and a time
    point. *)
Class Platform : Type := mk_Platform {
  win32 : bool;
  startTime : Z;
  ticks_per_ms : Z;
  put_time : string -> Z -> string
}.

(** A build without [_WIN32], its clock counting nanoseconds. *)
Definition posix : Platform :=
  {| win32 := false; startTime := 0; ticks_per_ms := 1000000;
     put_time := fun _ _ => "" |}.

Section Env.

Context {P : Platform}.

Definition path_separator : ascii := if win32 then "\"%char else "/"%char.

(** ** impl/formatter.h *)

(** [basic_field::stream]. The [switch] on the justification has no
    [break] after [case LEFT], so that case also runs the statement of
    [case RIGHT]. *)
Definition basic_field_stream (field : Field.t) (Width : Z) (j : Justification)
    (Fill : ascii) (os : ostream) (h : list basic_logger)
    (context : basic_log_entry) : option ostream :=
  let os := setw Width os in
  let os := setfill Fill os in
  let os := match j with
            | LEFT => std_right (std_left os)
            | RIGHT => std_right os
            end in
  match field with
  | Field.FileName =>
      match strrchr (filename (entry_context context)) path_separator with
      | Some n => Some (put (c_str_from (n + 1) (filename (entry_context context))) os)
      | None => None
      end
  | Field.FilePath => Some (put (filename (entry_context context)) os)
  | Field.Line => Some (put (dec_of_N (line (entry_context context))) os)
  | Field.Function => Some (put (funcname (entry_context context)) os)
  | Field.LoggerName =>
      match h !! entry_logger context with
      | Some l => Some (put (name l) os)
      | None => None
      end
  | Field.Message => Some (put (entry_msg context) os)
  | Field.LogLevel => Some (stream_level (entry_level context) os)
  | Field.WallTime =>
      let runtime := entry_timestamp context - startTime in
      Some (put (dec_of_Z (Z.quot runtime ticks_per_ms)) os)
  end.

(** [basic_time_field::stream]. *)
Definition basic_time_field_stream (formatStr : string) (os : ostream)
    (context : basic_log_entry) : ostream :=
  {| os_buf := os_buf os +:+ put_time formatStr (entry_timestamp context);
     os_width := os_width os; os_fill := os_fill os; os_adjust := os_adjust os |}.

(** The three overloads of [formatElement]. *)
Definition formatElement (e : element) (os : ostream) (h : list basic_logger)
    (context : basic_log_entry) : option ostream :=
  match e with
  | basic_field field Width j Fill => basic_field_stream field Width j Fill os h context
  | basic_time_field formatStr => Some (basic_time_field_stream formatStr os context)
  | literal t => Some (insert_value t os)
  end.

(** [formatTuple<N>]: the elements from position [N] on, in order. *)
Fixpoint formatTuple (formatters : list element) (h : list basic_logger)
    (context : basic_log_entry) (os : ostream) : option ostream :=
  match formatters with
  | [] => Some os
  | e :: rest =>
      match formatElement e os h context with
      | Some os' => formatTuple rest h context os'
      | None => None
      end
  end.

(** The virtual [format]: [basic_formatter::format] and its override
    [basic_template_formatter::format]. *)
Definition format (f : formatter) (h : list basic_logger)
    (context : basic_log_entry) : option string :=
  match f with
  | basic_formatter =>
      let stream := new_stringstream in
      let stream := stream_level (entry_level context) stream in
      let stream := put " - " stream in
      let stream := put (entry_msg context) stream in
      let stream := insert_value (SChar LF) stream in
      Some (os_buf stream)
  | basic_template_formatter formatters =>
      match formatTuple formatters h context new_stringstream with
      | Some stream => Some (os_buf stream)
      | None => None
      end
  end.

(** ** sink.h: logging to a sink *)

Definition formatMessage (s : basic_stream_sink) (h : list basic_logger)
    (context : basic_log_entry) : option string :=
  format (sink_formatter s) h context.

(** [basic_stream_sink::log]. *)
Definition sink_log (sp : sink_ptr) (context : basic_log_entry) (w : World) :
    option World :=
  match sink_objs w !! sp with
  | None => None
  | Some s =>
      if level_ge (entry_level context) (sink_level s) then
        match formatMessage s (objs w) context with
        | Some text => Some (write sp text w)
        | None => None
        end
      else Some w
  end.

(** Offering an entry to the sinks of one logger, in insertion order. *)
Fixpoint log_sinks (ss : list sink_ptr) (entry : basic_log_entry) (w : World) :
    option World :=
  match ss with
  | [] => Some w
  | sink :: ss' =>
      match sink_log sink entry w with
      | Some w1 => log_sinks ss' entry w1
      | None => None
      end
  end.

(** ** impl/logger.h: emission *)

(** [logEntry]: own sinks first, then the parent when the logger is
    additive and has one. [fuel] bounds the number of hops. *)
Fixpoint logEntry_fuel (fuel : nat) (l : logger_ptr) (entry : basic_log_entry)
    (w : World) : option World :=
  match fuel with
  | O => None
  | S fuel' =>
      match objs w !! l with
      | None => None
      | Some o =>
          match log_sinks (sinks o) entry w with
          | None => None
          | Some w1 =>
              if additive o then
                match parent o with
                | Some p => logEntry_fuel fuel' p entry w1
                | None => Some w1
                end
              else Some w1
          end
      end
  end.

Definition logEntry (l : logger_ptr) (entry : basic_log_entry) (w : World) :
    option World :=
  logEntry_fuel (length (objs w)) l entry w.

(** [log(level, msg, context)]. *)
Definition log (now : Z) (l : logger_ptr) (lvl : LogLevel) (msg : string)
    (context : log_context) (w : World) : option World :=
  match getLevel l w with
  | None => None
  | Some effective =>
      if level_lt lvl effective then Some w
      else logEntry l (new_entry_msg now context l lvl msg) w
  end.

(** ** logger.h: the stream accumulator *)

Record basic_log_stream : Type := mk_log_stream {
  ls_entry : basic_log_entry;
  ls_stream : ostream
}.

(** The private constructor: the entry is taken over and the buffer
    starts empty. *)
Definition new_log_stream (entry : basic_log_entry) : basic_log_stream :=
  {| ls_entry := entry; ls_stream := new_stringstream |}.

(** [log(level, context)]: returns the accumulator. *)
Definition log_stream (now : Z) (l : logger_ptr) (lvl : LogLevel)
    (context : log_context) : basic_log_stream :=
  new_log_stream (new_entry now context l lvl).

(** [operator<<(stream, val)]. *)
Definition stream_insert (s : basic_log_stream) (val : streamable) : basic_log_stream :=
  {| ls_entry := ls_entry s; ls_stream := insert_value val (ls_stream s) |}.

(** [operator<<(stream, F)] for a manipulator [F]. *)
Definition stream_manip (s : basic_log_stream) (F : ostream -> ostream) : basic_log_stream :=
  {| ls_entry := ls_entry s; ls_stream := F (ls_stream s) |}.

(** The defaulted move constructor moves both members. It yields the new
    object; the source object stays alive with the scalar members of its
    entry unchanged, and with its message and its buffer in the valid but
    unspecified states [msg'] and [stream'] that the moves leave. *)
Definition move_construct (msg' : string) (stream' : ostream)
    (other : basic_log_stream) : basic_log_stream * basic_log_stream :=
  ({| ls_entry := ls_entry other; ls_stream := ls_stream other |},
   {| ls_entry := set_msg msg' (ls_entry other); ls_stream := stream' |}).

(** The destructor [~basic_log_stream]. *)
Definition destroy (s : basic_log_stream) (w : World) : option World :=
  let entry := set_msg (os_buf (ls_stream s)) (ls_entry s) in
  logEntry (entry_logger entry) entry w.

(** ** l3pp.h: the logging macro [_L3PP_LOG(level, channel, expr)]

    [expr] is the chain of values streamed into the accumulator, which
    is a temporary destroyed at the end of the statement. *)
Definition L3PP_LOG (now : Z) (lvl : LogLevel) (channel : string)
    (expr : list streamable) (context : log_context) (w : World) : option World :=
  match getLogger channel w with
  | None => None
  | Some (L3PP_channel, w1) =>
      match getLevel L3PP_channel w1 with
      | None => None
      | Some effective =>
          if level_le effective lvl then
            destroy (fold_left stream_insert expr (log_stream now L3PP_channel lvl context)) w1
          else Some w1
      end
  end.

End Env.

(** * Notions used to state the properties *)

(** ** Names *)

(** [p] is a dot-separated prefix of [nm]: [nm] is [p], a dot, and more. *)
Definition dotted_prefix (p nm : string) : Prop :=
  exists rest, nm = p +:+ String "."%char rest.

(** [p] is the longest proper dotted prefix of [nm]. *)
Definition longest_dotted_prefix (p nm : string) : Prop :=
  dotted_prefix p nm /\
  forall q, dotted_prefix q nm -> (String.length q <= String.length p)%nat.

(** The character [c] occurs in [s]: [s] is some text, [c], and more. *)
Definition has_separator (c : ascii) (s : string) : Prop :=
  exists d b, s = d +:+ String c b.

(** The names that matter when [nm] is requested: [nm] itself, its
    dotted prefixes, and the empty name of the root. *)
Definition on_name_path (k nm : string) : Prop :=
  k = nm \/ dotted_prefix k nm \/ k = "".

(** The name that [getLogger] resolves for the parent of [nm]. *)
Definition parent_name (nm : string) : string :=
  match rfind nm "."%char with
  | None => ""
  | Some n => substr0 nm n
  end.

(** [a] is the logger that the registry holds for the name [k]: the
    root for the empty name, the entry of the map otherwise. *)
Definition logger_of (w : World) (k : string) (a : logger_ptr) : Prop :=
  if decide (k = "") then root_logger w = Some a else loggers w !! k = Some a.

(** Some instance carries the name [k]. *)
Definition named (w : World) (k : string) (a : logger_ptr) : Prop :=
  exists o, objs w !! a = Some o /\ name o = k.

(** The prefix-parent relation of the registry: every registered logger
    carries its key as name, and its parent handle is the logger of the
    longest proper dotted prefix of that name, the root when the name
    has no dotted prefix. *)
Definition parent_linked (w : World) : Prop :=
  forall k a, loggers w !! k = Some a ->
    exists o p, objs w !! a = Some o /\ name o = k /\ parent o = Some p /\
      ((exists q, longest_dotted_prefix q k /\ logger_of w q p) \/
       ((forall q, ~ dotted_prefix q k) /\ root_logger w = Some p)).

(** ** Well-formed states *)

Record wf_World (w : World) : Prop := mk_wf {
  (* a parent is an older instance; a logger without parent has a
     concrete level *)
  wf_parent : forall a o, objs w !! a = Some o ->
      match parent o with
      | Some p => (p < a)%nat
      | None => level o <> INHERIT
      end;
  (* the root static designates a nameless, parentless instance *)
  wf_root : forall r, root_logger w = Some r ->
      exists o, objs w !! r = Some o /\ parent o = None /\ name o = "";
  (* every entry of the map is a named instance linked to the logger of
     its parent name *)
  wf_registered : forall k a, loggers w !! k = Some a ->
      k <> "" /\
      exists o p, objs w !! a = Some o /\ name o = k /\ parent o = Some p /\
                  logger_of w (parent_name k) p;
  (* every instance is the root or is registered under its name *)
  wf_owned : forall a o, objs w !! a = Some o ->
      root_logger w = Some a \/ loggers w !! name o = Some a;
  (* attached sinks exist *)
  wf_sinks : forall a o s, objs w !! a = Some o -> s ∈ sinks o ->
      (s < length (sink_objs w))%nat
}.

(** ** Growth of the registry *)

(** What a call of [getLogger] for [nm] may add to a state. *)
Record grows (nm : string) (w w' : World) : Prop := mk_grows {
  g_objs : exists new, objs w' = objs w ++ new /\
             forall o, o ∈ new ->
               on_name_path (name o) nm /\ forall a, ~ named w (name o) a;
  g_loggers : forall k, loggers w' !! k = loggers w !! k \/
                        (loggers w !! k = None /\ on_name_path k nm);
  g_root : forall r, root_logger w = Some r -> root_logger w' = Some r;
  g_sinks : sink_objs w' = sink_objs w;
  g_output : output w' = output w
}.

(** ** Fan-out *)

(** [m] is reached from [l] by parent hops that leave additive loggers
    only. *)
Inductive on_chain (h : list basic_logger) : logger_ptr -> logger_ptr -> Prop :=
  | chain_here l : on_chain h l l
  | chain_up l o p m :
      h !! l = Some o -> additive o = true -> parent o = Some p ->
      on_chain h p m -> on_chain h l m.

(** The sink [s] is attached to a logger on the additive chain of [l]. *)
Definition attached_on_chain (w : World) (l : logger_ptr) (s : sink_ptr) : Prop :=
  exists m o, on_chain (objs w) l m /\ objs w !! m = Some o /\ s ∈ sinks o.

(** What was written between two states. *)
Definition emitted (w w' : World) : list (sink_ptr * string) :=
  drop (length (output w)) (output w').

(** The sink [s] received a write between the two states. *)
Definition delivered (s : sink_ptr) (w w' : World) : Prop :=
  exists text, (s, text) ∈ emitted w w'.

(** The floor of the sink [s] lets the level pass. *)
Definition passes_floor (w : World) (s : sink_ptr) (lvl : LogLevel) : Prop :=
  exists o, sink_objs w !! s = Some o /\ level_ge lvl (sink_level o) = true.

(** Two states that differ in the output only. *)
Definition same_config (w w' : World) : Prop :=
  objs w' = objs w /\ root_logger w' = root_logger w /\
  loggers w' = loggers w /\ sink_objs w' = sink_objs w.

(** Emission changes the output only, and only by appending. *)
Definition appends (w w' : World) : Prop :=
  same_config w w' /\ exists new, output w' = output w ++ new.

(** ** The nearest ancestor with a concrete level *)

(** [m] is the first logger with a stored level other than [INHERIT] on
    the way from [l] up the parent handles ([l] itself when its stored
    level is concrete). *)
Inductive resolves_to (h : list basic_logger) : logger_ptr -> logger_ptr -> Prop :=
  | resolves_here l o :
      h !! l = Some o -> level o <> INHERIT -> resolves_to h l l
  | resolves_up l o p m :
      h !! l = Some o -> level o = INHERIT -> parent o = Some p ->
      resolves_to h p m -> resolves_to h l m.

(** ** Accumulated text *)

(** The concatenation of the texts of the streamed values. *)
Fixpoint concat_text (vals : list streamable) : string :=
  match vals with
  | [] => ""
  | v :: vals' => text_of v +:+ concat_text vals'
  end.

(** ** Reachable states *)

Section Reach.

Context {P : Platform}.

(** Every sink can render the entry: its formatter is defined on it. *)
Definition renderable (w : World) (e : basic_log_entry) : Prop :=
  forall s o, sink_objs w !! s = Some o -> is_Some (formatMessage o (objs w) e).

(** One call of the public interface (with the private level setter of
    the sinks added, which only widens the set of states). Handles given
    to [addSink] come from [create]. *)
Inductive step : World -> World -> Prop :=
  | step_getRootLogger w : step w (getRootLogger w).2
  | step_getLogger nm w l w' : getLogger nm w = Some (l, w') -> step w w'
  | step_setLevel l lvl w w' : setLevel l lvl w = Some w' -> step w w'
  | step_setAdditive l b w w' : setAdditive l b w = Some w' -> step w w'
  | step_addSink l s w w' :
      (s < length (sink_objs w))%nat -> addSink l s w = Some w' -> step w w'
  | step_removeSink l s w w' : removeSink l s w = Some w' -> step w w'
  | step_create w : step w (create w).2
  | step_setFormatter s f w w' : setFormatter s f w = Some w' -> step w w'
  | step_sink_setLevel s lvl w w' : sink_setLevel s lvl w = Some w' -> step w w'
  | step_log now l lvl msg context w w' :
      log now l lvl msg context w = Some w' -> step w w'
  | step_destroy s w w' : destroy s w = Some w' -> step w w'
  | step_L3PP_LOG now lvl channel expr context w w' :
      L3PP_LOG now lvl channel expr context w = Some w' -> step w w'.

Inductive reachable : World -> Prop :=
  | reachable_initial : reachable initial_World
  | reachable_step w w' : reachable w -> step w w' -> reachable w'.

End Reach.

(** ** A concrete configuration

    The logger ["app.net"] requested in the initial state (which creates
    the root, ["app"] and ["app.net"] at the addresses 0, 1 and 2), one
    stream sink with the default formatter, attached to the root. *)

Definition demo_loggers : World :=
  match getLogger "app.net" initial_World with
  | Some (_, w) => w
  | None => initial_World
  end.

Definition demo_sink : World := (create demo_loggers).2.

Definition demo : World :=
  match addSink 0 0 demo_sink with
  | Some w => w
  | None => demo_sink
  end.

(** The same configuration with a second sink attached to ["app"], and
    ["app"] made non-additive. *)
Definition demo_cut : World :=
  let w1 := (create demo).2 in
  match addSink 1 1 w1 with
  | Some w2 =>
      match setAdditive 1 false w2 with
      | Some w3 => w3
      | None => w2
      end
  | None => w1
  end.


(** * Further members of the interface *)

(** ** sink.h: [getFormatter] *)

Definition getFormatter (s : sink_ptr) (w : World) : option formatter :=
  sink_formatter <$> sink_objs w !! s.

(** ** formatter.h: the formatter of the documentation of
    [makeTemplateFormatter]: level field, [" - "], message field and
    the string ["\n"]. *)
Definition documented_template : formatter :=
  basic_template_formatter
    [basic_field_default Field.LogLevel; literal (SString " - ");
     basic_field_default Field.Message; literal (SString (String LF ""))].

(** ** The additive chain as a list *)

(** The sink handles met by [logEntry], in the order of the calls: the
    sinks of the logger, then those of its parent when the logger is
    additive, and so on. *)
Fixpoint chain_sinks_fuel (fuel : nat) (h : list basic_logger) (l : logger_ptr) :
    list sink_ptr :=
  match fuel with
  | O => []
  | S fuel' =>
      match h !! l with
      | None => []
      | Some o =>
          sinks o ++
          (if additive o then
             match parent o with
             | Some p => chain_sinks_fuel fuel' h p
             | None => []
             end
           else [])
      end
  end.

Definition chain_sinks (w : World) (l : logger_ptr) : list sink_ptr :=
  chain_sinks_fuel (length (objs w)) (objs w) l.

(** A list of writes, performed in order. *)
Definition writes (new : list (sink_ptr * string)) (w : World) : World :=
  fold_left (fun w x => write x.1 x.2 w) new w.

(** The number of writes to the sink [s] in a list of writes. *)
Definition writes_to (s : sink_ptr) (new : list (sink_ptr * string)) : nat :=
  length (filter (fun x => x.1 = s) new).

Section ExtraEnv.

Context {P : Platform}.

(** ** logger.h: the message-based methods named after the levels *)

Definition trace (now : Z) (l : logger_ptr) (msg : string) (context : log_context) :=
  log now l TRACE msg context.
Definition debug (now : Z) (l : logger_ptr) (msg : string) (context : log_context) :=
  log now l DEBUG msg context.
Definition info (now : Z) (l : logger_ptr) (msg : string) (context : log_context) :=
  log now l INFO msg context.
Definition warn (now : Z) (l : logger_ptr) (msg : string) (context : log_context) :=
  log now l WARN msg context.
Definition error (now : Z) (l : logger_ptr) (msg : string) (context : log_context) :=
  log now l ERR msg context.
Definition fatal (now : Z) (l : logger_ptr) (msg : string) (context : log_context) :=
  log now l FATAL msg context.

(** ** What a sink writes for an entry *)

(** The write of the sink [s] for the entry: none when the level is
    under the level of the sink. *)
Definition rendered (w : World) (e : basic_log_entry) (s : sink_ptr) :
    list (sink_ptr * string) :=
  match sink_objs w !! s with
  | Some o =>
      if level_ge (entry_level e) (sink_level o) then
        match formatMessage o (objs w) e with
        | Some text => [(s, text)]
        | None => []
        end
      else []
  | None => []
  end.

(** The sink [s] can render the entry whenever its level admits it. *)
Definition renders (w : World) (e : basic_log_entry) (s : sink_ptr) : Prop :=
  forall o, sink_objs w !! s = Some o ->
    level_ge (entry_level e) (sink_level o) = true ->
    is_Some (formatMessage o (objs w) e).

(** So can every sink of the list. *)
Definition renders_all (w : World) (e : basic_log_entry) (ss : list sink_ptr) : Prop :=
  forall s, s ∈ ss -> renders w e s.

(** The writes of the whole fan-out started at [l]. *)
Definition fanout (w : World) (l : logger_ptr) (e : basic_log_entry) :
    list (sink_ptr * string) :=
  flat_map (rendered w e) (chain_sinks w l).

(** ** The text of the elements of a template *)

(** The text that a field stands for, before padding. *)
Definition field_text (field : Field.t) (h : list basic_logger)
    (context : basic_log_entry) : option string :=
  match field with
  | Field.FileName =>
      match rfind (filename (entry_context context)) path_separator with
      | Some n => Some (c_str_from (n + 1) (filename (entry_context context)))
      | None => None
      end
  | Field.FilePath => Some (filename (entry_context context))
  | Field.Line => Some (dec_of_N (line (entry_context context)))
  | Field.Function => Some (funcname (entry_context context))
  | Field.LoggerName => name <$> h !! entry_logger context
  | Field.Message => Some (entry_msg context)
  | Field.LogLevel => Some (level_text (entry_level context))
  | Field.WallTime =>
      Some (dec_of_Z (Z.quot (entry_timestamp context - startTime) ticks_per_ms))
  end.

(** The fill character up to the width, then the text. *)
Definition left_padded (Width : Z) (Fill : ascii) (t : string) : string :=
  replicate_char (Z.to_nat (Width - Z.of_nat (String.length t))) Fill +:+ t.

(** The text that an element contributes to the rendering. *)
Definition element_text (e : element) (h : list basic_logger)
    (context : basic_log_entry) : option string :=
  match e with
  | basic_field field Width _ Fill => left_padded Width Fill <$> field_text field h context
  | basic_time_field formatStr => Some (put_time formatStr (entry_timestamp context))
  | literal t => Some (text_of t)
  end.

(** The concatenation of the texts of the elements, undefined as soon
    as one of them is. *)
Fixpoint template_text (formatters : list element) (h : list basic_logger)
    (context : basic_log_entry) : option string :=
  match formatters with
  | [] => Some ""
  | e :: rest =>
      match element_text e h context, template_text rest h context with
      | Some t, Some ts => Some (t +:+ ts)
      | _, _ => None
      end
  end.

(** ** States reachable through the public members

    As [step], without the private level setter of the sinks. *)
Inductive public_step : World -> World -> Prop :=
  | pstep_getRootLogger w : public_step w (getRootLogger w).2
  | pstep_getLogger nm w l w' : getLogger nm w = Some (l, w') -> public_step w w'
  | pstep_setLevel l lvl w w' : setLevel l lvl w = Some w' -> public_step w w'
  | pstep_setAdditive l b w w' : setAdditive l b w = Some w' -> public_step w w'
  | pstep_addSink l s w w' :
      (s < length (sink_objs w))%nat -> addSink l s w = Some w' -> public_step w w'
  | pstep_removeSink l s w w' : removeSink l s w = Some w' -> public_step w w'
  | pstep_create w : public_step w (create w).2
  | pstep_setFormatter s f w w' : setFormatter s f w = Some w' -> public_step w w'
  | pstep_log now l lvl msg context w w' :
      log now l lvl msg context w = Some w' -> public_step w w'
  | pstep_destroy s w w' : destroy s w = Some w' -> public_step w w'
  | pstep_L3PP_LOG now lvl channel expr context w w' :
      L3PP_LOG now lvl channel expr context w = Some w' -> public_step w w'.

Inductive public_reachable : World -> Prop :=
  | public_reachable_initial : public_reachable initial_World
  | public_reachable_step w w' :
      public_reachable w -> public_step w w' -> public_reachable w'.

End ExtraEnv.

(** * The earlier single-header variant (class [Logger] with filters)

    Its levels, [utility::basename], the [Filter] with its rule lookup
    and the width computation of its [Formatter]. *)

Module Legacy.

Inductive LogLevel : Set :=
  | LVL_ALL | LVL_TRACE | LVL_DEBUG | LVL_INFO | LVL_WARN | LVL_ERROR
  | LVL_FATAL | LVL_OFF.

Definition LVL_DEFAULT : LogLevel := LVL_WARN.

(** The enumerator values ([enum class LogLevel : unsigned]). *)
Definition level_value (l : LogLevel) : Z :=
  match l with
  | LVL_ALL => 0 | LVL_TRACE => 1 | LVL_DEBUG => 2 | LVL_INFO => 3
  | LVL_WARN => 4 | LVL_ERROR => 5 | LVL_FATAL => 6 | LVL_OFF => 7
  end.

Definition level_ge (a b : LogLevel) : bool := level_value b <=? level_value a.

(** [operator<<] for a level: every text has five characters. *)
Definition stream_level (level : LogLevel) (os : ostream) : ostream :=
  match level with
  | LVL_ALL => put "ALL  " os
  | LVL_TRACE => put "TRACE" os
  | LVL_DEBUG => put "DEBUG" os
  | LVL_INFO => put "INFO " os
  | LVL_WARN => put "WARN " os
  | LVL_ERROR => put "ERROR" os
  | LVL_FATAL => put "FATAL" os
  | LVL_OFF => put "OFF  " os
  end.

(** ** [size_t] positions of [std::string] *)

(** The width of [size_t] is 64 bits; [npos] is its greatest value. *)
Definition size_modulus : N := 2 ^ 64.
Definition npos : N := size_modulus - 1.

(** [s.rfind(c)] as a position. *)
Definition rfind_pos (s : string) (c : ascii) : N :=
  match rfind s c with
  | Some n => N.of_nat n
  | None => npos
  end.

(** Addition of [size_t] values. *)
Definition size_add (a b : N) : N := ((a + b) mod size_modulus)%N.

(** [s.substr(pos)]: throws [std::out_of_range] ([None]) when [pos] is
    beyond the size. *)
Definition substr_from (s : string) (pos : N) : option string :=
  if (N.of_nat (String.length s) <? pos)%N then None
  else Some (c_str_from (N.to_nat pos) s).

(** [utility::basename]: [s.substr(s.rfind('/') + 1)]. *)
Definition basename (s : string) : option string :=
  substr_from s (size_add (rfind_pos s "/"%char) 1).

(** ** [Filter] *)

Record Filter : Type := mk_Filter {
  data : gmap string LogLevel
}.

(** [operator()(channel, level)]: [data[channel] = level]. *)
Definition rule (channel : string) (level : LogLevel) (f : Filter) : Filter :=
  {| data := <[channel := level]> (data f) |}.

(** The constructor [Filter(level)]: a rule for the empty channel. *)
Definition new_Filter (level : LogLevel) : Filter :=
  rule "" level {| data := ∅ |}.

(** The loop of [check]: from [curChan] up the dotted prefixes until a
    rule is found or the empty channel has been tried; [fuel] bounds the
    number of iterations. *)
Fixpoint check_find (fuel : nat) (curChan : string) (f : Filter) : option LogLevel :=
  match data f !! curChan with
  | Some l => Some l
  | None =>
      if (0 <? String.length curChan)%nat then
        match fuel with
        | O => None
        | S fuel' =>
            let n := rfind curChan "."%char in
            let curChan' :=
              match n with
              | None => ""
              | Some n => substr0 curChan n
              end in
            check_find fuel' curChan' f
        end
      else None
  end.

(** [check(channel, level)]; the assertion [it != data.end()] fails
    when no rule was found ([None]). *)
Definition check (f : Filter) (channel : string) (level : LogLevel) : option bool :=
  match check_find (String.length channel) channel f with
  | Some l => Some (level_ge level l)
  | None => None
  end.

(** ** [Formatter::configure] *)

(** The loop body: the width grows to the size of the channel. *)
Definition widen (channel : string) (channelwidth : nat) : nat :=
  if (channelwidth <? String.length channel)%nat then String.length channel
  else channelwidth.

(** [configure(f)]: one pass over the rules of the filter. *)
Definition configure (channelwidth : nat) (f : Filter) : nat :=
  map_fold (fun channel _ cw => widen channel cw) channelwidth (data f).

(** The rule that decides for [channel]: the rule of [k], where [k] is
    the channel, one of its dotted prefixes or the empty channel, and
    no longer name among these has a rule. *)
Definition governs (f : Filter) (channel k : string) (l : LogLevel) : Prop :=
  on_name_path k channel /\ data f !! k = Some l /\
  forall k', on_name_path k' channel ->
             (String.length k < String.length k')%nat -> data f !! k' = None.

End Legacy.

(** ** What later states keep of an earlier one *)

(** Every logger handle still designates an instance with the same name
    and parent, every entry of the registry and the root are the same,
    every sink handle is still valid, and the output has only grown at
    its end. *)
Definition keeps (w w' : World) : Prop :=
  (forall a o, objs w !! a = Some o ->
     exists o', objs w' !! a = Some o' /\ name o' = name o /\ parent o' = parent o) /\
  (forall k a, loggers w !! k = Some a -> loggers w' !! k = Some a) /\
  (forall r, root_logger w = Some r -> root_logger w' = Some r) /\
  (forall s, (s < length (sink_objs w))%nat -> (s < length (sink_objs w'))%nat) /\
  (exists new, output w' = output w ++ new).

(** ** Concrete inputs *)

(** An entry logged at ["app.net"]. *)
Definition demo_entry : basic_log_entry :=
  new_entry_msg 0 log_context_default 2 ERR "down".

(** The root of [demo], with its sink. *)
Definition demo_root : basic_logger :=
  {| parent := None; name := ""; level := WARN; sinks := [0%nat]; additive := true |}.

(** [addSink] for each sink of a list in turn. *)
Definition attach_all (l : logger_ptr) (ss : list sink_ptr) (w : World) : World :=
  fold_left (fun w s => default w (addSink l s w)) ss w.

(** [demo] with two more sinks, the second with the level [FATAL]. *)
Definition demo_sinks : World :=
  let w := (create (create demo).2).2 in default w (sink_setLevel 2 FATAL w).

(** The three sinks attached to ["app"], two of them twice. *)
Definition demo_multi : World := attach_all 1 [0; 1; 0; 1; 2]%nat demo_sinks.

(** The logger ["app"] of [demo_multi]. *)
Definition demo_app : basic_logger :=
  {| parent := Some 0%nat; name := "app"; level := INHERIT;
     sinks := [0; 1; 0; 1; 2]%nat; additive := true |}.

(** An entry logged at ["app"]. *)
Definition demo_entry_app : basic_log_entry :=
  new_entry_msg 0 log_context_default 1 ERR "down".

(** ["app"] with a sink of its own, and the sink of the root given a
    formatter made of the file-name field, which is undefined on the
    entries of the default context. *)
Definition demo_blind : World :=
  let w := attach_all 1 [1%nat] (create demo).2 in
  default w (setFormatter 0
               (basic_template_formatter [basic_field_default Field.FileName]) w).

(** The logger ["app"] of [demo_blind]. *)
Definition demo_blind_app : basic_logger :=
  {| parent := Some 0%nat; name := "app"; level := INHERIT;
     sinks := [1%nat]; additive := true |}.

(** A filter with the default rule and a rule for ["a"]. *)
Definition demo_filter : Legacy.Filter :=
  Legacy.rule "a" Legacy.LVL_DEBUG (Legacy.new_Filter Legacy.LVL_WARN).

(** * Facts about names *)

Lemma string_length_app (s t : string) :
  String.length (s +:+ t) = (String.length s + String.length t)%nat.
Proof. induction s as [|a s IH]; simpl; [reflexivity | now rewrite IH]. Qed.

Lemma string_app_cons (a : ascii) (s t : string) :
  String a s +:+ t = String a (s +:+ t).
Proof. reflexivity. Qed.

Lemma string_app_assoc (s t u : string) : (s +:+ t) +:+ u = s +:+ (t +:+ u).
Proof.
  induction s as [|a s IH]; [reflexivity | rewrite !string_app_cons; now f_equal].
Qed.

Lemma substr0_cons (a : ascii) (s : string) (n : nat) :
  substr0 (String a s) (S n) = String a (substr0 s n).
Proof. reflexivity. Qed.

Lemma substr0_zero (s : string) : substr0 s 0 = "".
Proof. destruct s; reflexivity. Qed.

(** [rfind] cuts the string at a last occurrence. *)
Lemma rfind_Some_split (s : string) (c : ascii) (n : nat) :
  rfind s c = Some n ->
  exists rest, s = substr0 s n +:+ String c rest /\
               String.length (substr0 s n) = n /\ rfind rest c = None.
Proof.
  revert n. induction s as [|a s IH]; intros n H; simpl in H; [discriminate|].
  destruct (rfind s c) as [m|] eqn:E.
  - injection H as <-. destruct (IH m eq_refl) as (rest & Hs & Hl & Hr).
    exists rest. rewrite substr0_cons. repeat split; [|cbn [String.length]; now f_equal|assumption].
    change (String a s = String a (substr0 s m +:+ String c rest)). now f_equal.
  - destruct (decide (a = c)) as [->|]; [|discriminate].
    injection H as <-. exists s. rewrite substr0_zero. auto.
Qed.

Lemma rfind_Some_shorter (s : string) (c : ascii) (n : nat) :
  rfind s c = Some n -> (String.length (substr0 s n) < String.length s)%nat.
Proof.
  intros H. destruct (rfind_Some_split _ _ _ H) as (rest & Hs & Hl & _).
  rewrite Hs at 2. rewrite string_length_app, Hl. simpl. lia.
Qed.

(** An occurrence is found, at or after any given one. *)
Lemma rfind_app_Some (p rest : string) (c : ascii) :
  exists n, rfind (p +:+ String c rest) c = Some n /\ (String.length p <= n)%nat.
Proof.
  induction p as [|a p (m & Hm & Hle)]; simpl.
  - destruct (rfind rest c) as [m|].
    + exists (S m). split; [reflexivity | lia].
    + exists 0%nat. destruct (decide (c = c)); [split; [reflexivity | lia] | congruence].
  - rewrite Hm. exists (S m). split; [reflexivity | lia].
Qed.

Lemma rfind_None_no_occurrence (p rest : string) (c : ascii) :
  rfind (p +:+ String c rest) c <> None.
Proof. destruct (rfind_app_Some p rest c) as (n & -> & _). discriminate. Qed.

(** A cut at an occurrence is the cut of [rfind] or a cut of its prefix. *)
Lemma prefix_cases (p rest s : string) (c : ascii) (n : nat) :
  s = p +:+ String c rest -> rfind s c = Some n ->
  p = substr0 s n \/ exists rest', substr0 s n = p +:+ String c rest'.
Proof.
  revert s n. induction p as [|a p IH]; intros s n -> H.
  - destruct n as [|m].
    + left. now rewrite substr0_zero.
    + right. exists (substr0 rest m). reflexivity.
  - simpl in H. destruct (rfind_app_Some p rest c) as (m & Hm & _).
    rewrite Hm in H. injection H as <-.
    change (String a p +:+ String c rest) with (String a (p +:+ String c rest)).
    rewrite substr0_cons.
    destruct (IH _ m eq_refl Hm) as [E|(rest' & E)].
    + left. now f_equal.
    + right. exists rest'. rewrite E. reflexivity.
Qed.

(** [rfind] finds nothing exactly in the strings without occurrence. *)
Lemma rfind_None_iff (s : string) (c : ascii) :
  rfind s c = None <-> ~ has_separator c s.
Proof.
  split.
  - intros H (d & b & ->). now apply rfind_None_no_occurrence in H.
  - intros H. destruct (rfind s c) as [n|] eqn:E; [|reflexivity].
    exfalso. apply H. destruct (rfind_Some_split _ _ _ E) as (rest & Hs & _).
    now exists (substr0 s n), rest.
Qed.

(** It finds the occurrence after which there is no other. *)
Lemma rfind_last (d b : string) (c : ascii) :
  rfind b c = None -> rfind (d +:+ String c b) c = Some (String.length d).
Proof.
  intros Hb. induction d as [|a d IH].
  - simpl. rewrite Hb. destruct (decide (c = c)); [reflexivity | congruence].
  - rewrite string_app_cons. simpl. now rewrite IH.
Qed.

Lemma c_str_from_app_cons (q rest : string) (c : ascii) :
  c_str_from (String.length q + 1) (q +:+ String c rest) = rest.
Proof. induction q as [|a q IH]; simpl; [now destruct rest | exact IH]. Qed.

Lemma dotted_prefix_shorter (p nm : string) :
  dotted_prefix p nm -> (String.length p < String.length nm)%nat.
Proof. intros (rest & ->). rewrite string_length_app. simpl. lia. Qed.

Lemma dotted_prefix_trans (p q nm : string) :
  dotted_prefix p q -> dotted_prefix q nm -> dotted_prefix p nm.
Proof.
  intros (r1 & ->) (r2 & ->). exists (r1 +:+ String "."%char r2).
  now rewrite string_app_assoc.
Qed.

(** [parent_name] and the dotted prefixes. *)
Lemma parent_name_Some (nm : string) (n : nat) :
  rfind nm "."%char = Some n -> longest_dotted_prefix (substr0 nm n) nm.
Proof.
  intros H. destruct (rfind_Some_split _ _ _ H) as (rest & Hs & Hl & Hr).
  split; [now exists rest|].
  intros q (r & Hq).
  destruct (rfind_app_Some q r "."%char) as (m & Hm & Hle).
  rewrite <- Hq, H in Hm. injection Hm as <-. now rewrite Hl.
Qed.

Lemma parent_name_None (nm : string) :
  rfind nm "."%char = None -> forall q, ~ dotted_prefix q nm.
Proof. intros H q (r & ->). now apply rfind_None_no_occurrence in H. Qed.

Lemma parent_name_prefix (nm : string) :
  nm <> "" -> parent_name nm = "" \/ dotted_prefix (parent_name nm) nm.
Proof.
  intros _. unfold parent_name. destruct (rfind nm "."%char) as [n|] eqn:E; [|now left].
  right. apply parent_name_Some, E.
Qed.

Lemma parent_name_shorter (nm : string) :
  nm <> "" -> (String.length (parent_name nm) < String.length nm)%nat.
Proof.
  intros Hne. unfold parent_name. destruct (rfind nm "."%char) as [n|] eqn:E.
  - now apply rfind_Some_shorter in E.
  - destruct nm; [congruence | simpl; lia].
Qed.

(** A dotted prefix of [nm] is the parent name or a dotted prefix of it. *)
Lemma dotted_prefix_parent (p nm : string) :
  dotted_prefix p nm -> p = parent_name nm \/ dotted_prefix p (parent_name nm).
Proof.
  intros (rest & Hs). unfold parent_name.
  destruct (rfind_app_Some p rest "."%char) as (n & Hn & _). rewrite <- Hs in Hn.
  rewrite Hn. destruct (prefix_cases _ _ _ _ _ Hs Hn) as [->|(rest' & Hr)].
  - now left.
  - right. now exists rest'.
Qed.

Lemma on_name_path_parent (k nm : string) :
  nm <> "" -> on_name_path k (parent_name nm) -> on_name_path k nm.
Proof.
  intros Hne [ -> | [H | -> ] ].
  - destruct (parent_name_prefix nm Hne) as [ -> | H]; [right; now right|right; now left].
  - destruct (parent_name_prefix nm Hne) as [E|H'].
    + rewrite E in H. apply dotted_prefix_shorter in H. simpl in H. lia.
    + right; left. eapply dotted_prefix_trans; eassumption.
  - right; now right.
Qed.

Lemma on_name_path_length (k nm : string) :
  on_name_path k nm -> (String.length k <= String.length nm)%nat.
Proof.
  intros [ -> | [H | -> ] ]; [lia| |simpl; lia].
  apply dotted_prefix_shorter in H. lia.
Qed.

Lemma length_zero_empty (s : string) : (String.length s =? 0)%nat = true <-> s = "".
Proof. destruct s; simpl; split; congruence. Qed.

(** * Well-formedness is an invariant *)

Lemma lookup_snoc {A : Type} (l : list A) (x y : A) (a : nat) :
  (l ++ [x]) !! a = Some y ->
  (l !! a = Some y /\ (a < length l)%nat) \/ (a = length l /\ y = x).
Proof.
  intros H. destruct (decide (a < length l)%nat) as [Hlt|Hge].
  - left. rewrite lookup_app_l in H by assumption. auto.
  - right. rewrite lookup_app_r in H by lia.
    destruct (a - length l)%nat as [|k] eqn:E; simpl in H; [|discriminate].
    split; [lia | congruence].
Qed.

Lemma lookup_snoc_old {A : Type} (l : list A) (x y : A) (a : nat) :
  l !! a = Some y -> (l ++ [x]) !! a = Some y.
Proof. intros H. rewrite lookup_app_l; [assumption | eapply lookup_lt_Some, H]. Qed.

Lemma lookup_snoc_new {A : Type} (l : list A) (x : A) :
  (l ++ [x]) !! length l = Some x.
Proof. rewrite lookup_app_r by lia. now rewrite Nat.sub_diag. Qed.

Lemma logger_of_valid (w : World) (k : string) (a : logger_ptr) :
  wf_World w -> logger_of w k a -> exists o, objs w !! a = Some o /\ name o = k.
Proof.
  intros Hwf H. unfold logger_of in H. destruct (decide (k = "")) as [->|Hne].
  - destruct (wf_root _ Hwf _ H) as (o & Ho & _ & Hn). eauto.
  - destruct (wf_registered _ Hwf _ _ H) as (_ & o & p & Ho & Hn & _). eauto.
Qed.

Lemma named_logger_of (w : World) (k : string) (a : logger_ptr) :
  wf_World w -> named w k a -> logger_of w k a.
Proof.
  intros Hwf (o & Ho & Hn). unfold logger_of.
  destruct (wf_owned _ Hwf _ _ Ho) as [Hr|Hr].
  - destruct (wf_root _ Hwf _ Hr) as (o' & Ho' & _ & Hn').
    assert (o' = o) by congruence. subst o'.
    destruct (decide (k = "")); congruence.
  - rewrite Hn in Hr. destruct (wf_registered _ Hwf _ _ Hr) as (Hne & _).
    destruct (decide (k = "")); congruence.
Qed.

(** Names identify instances. *)
Lemma named_unique (w : World) (k : string) (a b : logger_ptr) :
  wf_World w -> named w k a -> named w k b -> a = b.
Proof.
  intros Hwf Ha Hb. apply (named_logger_of _ _ _ Hwf) in Ha, Hb.
  unfold logger_of in *. destruct (decide (k = "")); congruence.
Qed.

Lemma wf_initial : wf_World initial_World.
Proof.
  split; simpl; intros; try discriminate;
    match goal with H : [] !! _ = Some _ |- _ => now rewrite lookup_nil in H
                  | H : ∅ !! _ = Some _ |- _ => now rewrite lookup_empty in H end.
Qed.

Lemma grows_refl (nm : string) (w : World) : grows nm w w.
Proof.
  split; auto. exists []. split; [now rewrite app_nil_r|].
  intros o H. now apply elem_of_nil in H.
Qed.

Lemma grows_parent (nm : string) (w w' : World) :
  nm <> "" -> grows (parent_name nm) w w' -> grows nm w w'.
Proof.
  intros Hne [(new & Ho & Hnew) Hl Hr Hs Hout]. split; auto.
  - exists new. split; [assumption|]. intros o Hin.
    destruct (Hnew o Hin) as [H1 H2]. split; [|assumption].
    now apply on_name_path_parent.
  - intros k. destruct (Hl k) as [E|[E H]]; [now left|right].
    split; [assumption|]. now apply on_name_path_parent.
Qed.

Lemma no_nameless_without_root (w : World) (a : logger_ptr) :
  wf_World w -> root_logger w = None -> ~ named w "" a.
Proof.
  intros Hwf Hr Hn. apply (named_logger_of _ _ _ Hwf) in Hn.
  unfold logger_of in Hn. simpl in Hn. congruence.
Qed.

Lemma getRootLogger_spec (nm : string) (w : World) :
  wf_World w ->
  wf_World (getRootLogger w).2 /\
  root_logger (getRootLogger w).2 = Some (getRootLogger w).1 /\
  grows nm w (getRootLogger w).2.
Proof.
  intros Hwf. unfold getRootLogger.
  destruct (root_logger w) as [r|] eqn:Hr; simpl.
  - split; [assumption|]. split; [assumption|]. apply grows_refl.
  - split; [|split; [reflexivity|]].
    + split; simpl.
      * intros a o H. apply lookup_snoc in H as [[H _]|[-> ->]].
        -- apply (wf_parent _ Hwf _ _ H).
        -- simpl. discriminate.
      * intros r [= <-]. exists new_root. rewrite lookup_snoc_new. auto.
      * intros k a H. destruct (wf_registered _ Hwf _ _ H) as (Hne & o & p & Ho & Hn & Hp & Hl).
        split; [assumption|]. exists o, p. repeat split; auto using lookup_snoc_old.
        unfold logger_of in *. simpl.
        destruct (decide (parent_name k = "")); [congruence | assumption].
      * intros a o H. apply lookup_snoc in H as [[H _]|[-> ->]].
        -- destruct (wf_owned _ Hwf _ _ H) as [?|?]; [congruence | now right].
        -- now left.
      * intros a o s H Hs. apply lookup_snoc in H as [[H _]|[-> ->]].
        -- apply (wf_sinks _ Hwf _ _ _ H Hs).
        -- simpl in Hs. now apply elem_of_nil in Hs.
    + split; simpl; auto; [|intros; congruence].
      exists [new_root]. split; [reflexivity|].
      intros o Ho. apply list_elem_of_singleton in Ho as ->. simpl.
      split; [right; now right|]. intros a. now apply no_nameless_without_root.
Qed.

Lemma register_spec (nm : string) (p : logger_ptr) (w : World) :
  wf_World w -> nm <> "" -> loggers w !! nm = None ->
  logger_of w (parent_name nm) p ->
  wf_World (register nm p w).2 /\
  logger_of (register nm p w).2 nm (register nm p w).1 /\
  grows nm w (register nm p w).2.
Proof.
  intros Hwf Hne Hnone Hp.
  assert (Hkeep : forall k a, logger_of w k a -> logger_of (register nm p w).2 k a).
  { intros k a. unfold logger_of, register, emplace. simpl. rewrite Hnone.
    destruct (decide (k = "")); [auto|]. intros H.
    rewrite lookup_insert_ne; [assumption | congruence]. }
  unfold register in *. simpl in *. unfold emplace in *. rewrite Hnone in *.
  split; [|split].
  - split; simpl.
    + intros a o H. apply lookup_snoc in H as [[H _]|[-> ->]].
      * apply (wf_parent _ Hwf _ _ H).
      * simpl. destruct (logger_of_valid _ _ _ Hwf Hp) as (o & Ho & _).
        eapply lookup_lt_Some, Ho.
    + intros r Hr. destruct (wf_root _ Hwf _ Hr) as (o & Ho & H).
      exists o. split; [now apply lookup_snoc_old | assumption].
    + intros k a H. destruct (decide (k = nm)) as [->|Hk].
      * rewrite lookup_insert_eq in H. injection H as <-. split; [assumption|].
        exists (new_logger nm p), p. rewrite lookup_snoc_new. repeat split.
        apply (Hkeep _ _ Hp).
      * rewrite lookup_insert_ne in H by congruence.
        destruct (wf_registered _ Hwf _ _ H) as (Hk' & o & q & Ho & Hn & Hq & Hl).
        split; [assumption|]. exists o, q. repeat split; auto using lookup_snoc_old.
    + intros a o H. apply lookup_snoc in H as [[H _]|[-> ->]].
      * destruct (wf_owned _ Hwf _ _ H) as [?|Hr]; [now left | right].
        rewrite lookup_insert_ne; [assumption | congruence].
      * right. simpl. now rewrite lookup_insert_eq.
    + intros a o s H Hs. apply lookup_snoc in H as [[H _]|[-> ->]].
      * apply (wf_sinks _ Hwf _ _ _ H Hs).
      * simpl in Hs. now apply elem_of_nil in Hs.
  - unfold logger_of. simpl. destruct (decide (nm = "")); [congruence|].
    now rewrite lookup_insert_eq.
  - split; simpl; auto.
    + exists [new_logger nm p]. split; [reflexivity|].
      intros o Ho. apply list_elem_of_singleton in Ho as ->. simpl.
      split; [now left|]. intros a Ha. apply (named_logger_of _ _ _ Hwf) in Ha.
      unfold logger_of in Ha. destruct (decide (nm = "")); congruence.
    + intros k. destruct (decide (k = nm)) as [->|Hk].
      * right. split; [assumption | now left].
      * left. rewrite lookup_insert_ne; [reflexivity | congruence].
Qed.

Lemma grows_trans_register (nm : string) (p : logger_ptr) (w w1 : World) :
  wf_World w -> grows nm w w1 -> loggers w !! nm = None -> nm <> "" ->
  grows nm w1 (register nm p w1).2 -> grows nm w (register nm p w1).2.
Proof.
  intros Hwf [(new1 & Ho1 & Hnew1) Hl1 Hr1 Hs1 Hout1]
         Hnone Hne [(new2 & Ho2 & Hnew2) Hl2 Hr2 Hs2 Hout2].
  split.
  - exists (new1 ++ new2). split; [rewrite Ho2, Ho1; now rewrite app_assoc|].
    intros o [Hin|Hin]%elem_of_app; [now apply Hnew1|].
    destruct (Hnew2 o Hin) as [Hp Hfresh]. split; [assumption|].
    intros a (o' & Ho' & Hn'). apply (Hfresh a). exists o'. split; [|assumption].
    rewrite Ho1. rewrite lookup_app_l; [assumption | eapply lookup_lt_Some, Ho'].
  - intros k. destruct (Hl2 k) as [E2|[E2 H2]], (Hl1 k) as [E1|[E1 H1]].
    + left. congruence.
    + right. split; [assumption|assumption].
    + right. split; [congruence|assumption].
    + right. split; assumption.
  - auto.
  - congruence.
  - congruence.
Qed.

(** [getLogger] returns: it yields the logger of the name in a
    well-formed state that extends the given one. *)
Lemma getLogger_fuel_spec (fuel : nat) :
  forall (nm : string) (w : World),
    wf_World w -> (String.length nm < fuel)%nat ->
    exists a w', getLogger_fuel fuel nm w = Some (a, w') /\
                 wf_World w' /\ logger_of w' nm a /\ grows nm w w'.
Proof.
  induction fuel as [|fuel IH]; intros nm w Hwf Hlen; [lia|].
  simpl. destruct (String.length nm =? 0)%nat eqn:Hz.
  - apply length_zero_empty in Hz as ->.
    destruct (getRootLogger_spec "" w Hwf) as (Hwf' & Hr & Hg).
    exists (getRootLogger w).1, (getRootLogger w).2.
    split; [now destruct (getRootLogger w)|].
    split; [assumption|]. split; [exact Hr | exact Hg].
  - assert (Hne : nm <> "") by (intros ->; discriminate).
    destruct (loggers w !! nm) as [l|] eqn:Hl.
    + exists l, w. split; [reflexivity|]. split; [assumption|].
      split; [|apply grows_refl].
      unfold logger_of. destruct (decide (nm = "")); congruence.
    + assert (Hpar : exists p w1,
                 match rfind nm "."%char with
                 | Some n => getLogger_fuel fuel (substr0 nm n) w
                 | None => Some (getRootLogger w)
                 end = Some (p, w1) /\
                 wf_World w1 /\ logger_of w1 (parent_name nm) p /\
                 grows (parent_name nm) w w1).
      { pose proof (parent_name_shorter nm Hne) as Hsh. unfold parent_name in *.
        destruct (rfind nm "."%char) as [n|] eqn:En.
        - apply IH; [assumption | lia].
        - destruct (getRootLogger_spec "" w Hwf) as (Hwf' & Hr & Hg).
          exists (getRootLogger w).1, (getRootLogger w).2.
          split; [now destruct (getRootLogger w)|].
          split; [assumption|]. split; [exact Hr | exact Hg]. }
      destruct Hpar as (p & w1 & -> & Hwf1 & Hp & Hg1).
      assert (Hnone1 : loggers w1 !! nm = None).
      { destruct (g_loggers _ _ _ Hg1 nm) as [E|[_ Hon]]; [congruence|].
        apply on_name_path_length in Hon.
        pose proof (parent_name_shorter nm Hne). lia. }
      apply grows_parent in Hg1; [|assumption].
      destruct (register_spec nm p w1 Hwf1 Hne Hnone1 Hp) as (Hwf2 & Hlog & Hg2).
      exists (register nm p w1).1, (register nm p w1).2.
      split; [now destruct (register nm p w1)|].
      split; [assumption|]. split; [assumption|].
      now apply (grows_trans_register nm p w w1).
Qed.

Lemma getLogger_spec (nm : string) (w : World) :
  wf_World w ->
  exists a w', getLogger nm w = Some (a, w') /\
               wf_World w' /\ logger_of w' nm a /\ grows nm w w'.
Proof. intros Hwf. apply getLogger_fuel_spec; [assumption | lia]. Qed.

(** Replacing an instance by one with the same parent and name. *)
Lemma wf_update (w : World) (l : logger_ptr) (o o' : basic_logger) :
  wf_World w -> objs w !! l = Some o ->
  parent o' = parent o -> name o' = name o ->
  (parent o = None -> level o' <> INHERIT) ->
  (forall s, s ∈ sinks o' -> (s < length (sink_objs w))%nat) ->
  wf_World (set_objs (<[l := o']> (objs w)) w).
Proof.
  intros Hwf Hl Hp Hn Hlev Hs.
  pose proof (lookup_lt_Some _ _ _ Hl) as Hlt.
  assert (Hlook : forall a x, <[l := o']> (objs w) !! a = Some x ->
            exists y, objs w !! a = Some y /\ parent x = parent y /\ name x = name y /\
                      (a <> l -> x = y) /\ (a = l -> x = o')).
  { intros a x H. destruct (decide (a = l)) as [->|Hne].
    - rewrite list_lookup_insert_eq in H by assumption. injection H as <-.
      exists o. repeat split; auto. congruence.
    - rewrite list_lookup_insert_ne in H by congruence.
      exists x. repeat split; auto. congruence. }
  assert (Hback : forall a y, objs w !! a = Some y ->
            exists x, <[l := o']> (objs w) !! a = Some x /\
                      parent x = parent y /\ name x = name y).
  { intros a y H. destruct (decide (a = l)) as [->|Hne].
    - rewrite list_lookup_insert_eq by assumption. exists o'.
      assert (y = o) by congruence. subst y. auto.
    - rewrite list_lookup_insert_ne by congruence. eauto. }
  split; simpl.
  - intros a x H. destruct (Hlook _ _ H) as (y & Hy & Hpx & _ & Hne & Heq).
    pose proof (wf_parent _ Hwf _ _ Hy) as Hw. rewrite Hpx.
    destruct (parent y) eqn:E; [assumption|].
    destruct (decide (a = l)) as [->|Hal].
    + rewrite (Heq eq_refl). apply Hlev. congruence.
    + now rewrite (Hne Hal).
  - intros r Hr. destruct (wf_root _ Hwf _ Hr) as (y & Hy & Hpy & Hny).
    destruct (Hback _ _ Hy) as (x & Hx & Hpx & Hnx). exists x.
    split; [assumption|]. split; congruence.
  - intros k a H. destruct (wf_registered _ Hwf _ _ H) as (Hk & y & p & Hy & Hny & Hpy & Hlp).
    split; [assumption|]. destruct (Hback _ _ Hy) as (x & Hx & Hpx & Hnx).
    exists x, p. split; [assumption|]. split; [congruence|]. split; [congruence|].
    exact Hlp.
  - intros a x H. destruct (Hlook _ _ H) as (y & Hy & _ & Hnx & _).
    rewrite Hnx. apply (wf_owned _ Hwf _ _ Hy).
  - intros a x s H Hin. destruct (Hlook _ _ H) as (y & Hy & _ & _ & Hne & Heq).
    destruct (decide (a = l)) as [->|Hal].
    + rewrite (Heq eq_refl) in Hin. now apply Hs.
    + rewrite (Hne Hal) in Hin. apply (wf_sinks _ Hwf _ _ _ Hy Hin).
Qed.

Lemma wf_setLevel (l : logger_ptr) (lvl : LogLevel) (w w' : World) :
  wf_World w -> setLevel l lvl w = Some w' -> wf_World w'.
Proof.
  intros Hwf H. unfold setLevel in H. destruct (objs w !! l) as [o|] eqn:Hl; [|discriminate].
  destruct (bool_decide (lvl = INHERIT) && bool_decide (parent o = None)) eqn:Hc;
    injection H as <-; [assumption|].
  apply (wf_update w l o); auto.
  - intros Hp. simpl. intros ->.
    rewrite bool_decide_eq_true_2 in Hc by reflexivity.
    rewrite bool_decide_eq_true_2 in Hc by assumption. discriminate.
  - simpl. intros s Hs. apply (wf_sinks _ Hwf _ _ _ Hl Hs).
Qed.

Lemma wf_setAdditive (l : logger_ptr) (b : bool) (w w' : World) :
  wf_World w -> setAdditive l b w = Some w' -> wf_World w'.
Proof.
  intros Hwf H. unfold setAdditive in H. destruct (objs w !! l) as [o|] eqn:Hl; [|discriminate].
  injection H as <-. apply (wf_update w l o); auto.
  - intros Hp. simpl. pose proof (wf_parent _ Hwf _ _ Hl) as Hw. now rewrite Hp in Hw.
  - simpl. intros s Hs. apply (wf_sinks _ Hwf _ _ _ Hl Hs).
Qed.

Lemma wf_addSink (l : logger_ptr) (s : sink_ptr) (w w' : World) :
  wf_World w -> (s < length (sink_objs w))%nat -> addSink l s w = Some w' -> wf_World w'.
Proof.
  intros Hwf Hs H. unfold addSink in H. destruct (objs w !! l) as [o|] eqn:Hl; [|discriminate].
  injection H as <-. apply (wf_update w l o); auto.
  - intros Hp. simpl. pose proof (wf_parent _ Hwf _ _ Hl) as Hw. now rewrite Hp in Hw.
  - simpl. intros s' [Hin|Hin]%elem_of_app.
    + apply (wf_sinks _ Hwf _ _ _ Hl Hin).
    + apply list_elem_of_singleton in Hin as ->. assumption.
Qed.

Lemma erase_first_subset (s x : sink_ptr) (ss : list sink_ptr) :
  x ∈ erase_first s ss -> x ∈ ss.
Proof.
  induction ss as [|y ss IH]; simpl; [auto|].
  destruct (decide (y = s)).
  - intros H. now apply elem_of_cons; right.
  - intros [->|H]%elem_of_cons; apply elem_of_cons; auto.
Qed.

Lemma wf_removeSink (l : logger_ptr) (s : sink_ptr) (w w' : World) :
  wf_World w -> removeSink l s w = Some w' -> wf_World w'.
Proof.
  intros Hwf H. unfold removeSink in H. destruct (objs w !! l) as [o|] eqn:Hl; [|discriminate].
  injection H as <-. apply (wf_update w l o); auto.
  - intros Hp. simpl. pose proof (wf_parent _ Hwf _ _ Hl) as Hw. now rewrite Hp in Hw.
  - simpl. intros s' Hin%erase_first_subset. apply (wf_sinks _ Hwf _ _ _ Hl Hin).
Qed.

(** Changes of the sink store that keep its handles valid. *)
Lemma wf_set_sink_objs (h : list basic_stream_sink) (w : World) :
  wf_World w -> (length (sink_objs w) <= length h)%nat -> wf_World (set_sink_objs h w).
Proof.
  intros [H1 H2 H3 H4 H5] Hlen. split; simpl; auto.
  intros a o s Ho Hs. specialize (H5 a o s Ho Hs). lia.
Qed.

Lemma wf_create (w : World) : wf_World w -> wf_World (create w).2.
Proof.
  intros Hwf. apply wf_set_sink_objs; [assumption|]. rewrite length_app. lia.
Qed.

Lemma wf_setFormatter (s : sink_ptr) (f : formatter) (w w' : World) :
  wf_World w -> setFormatter s f w = Some w' -> wf_World w'.
Proof.
  intros Hwf H. unfold setFormatter in H. destruct (sink_objs w !! s); [|discriminate].
  injection H as <-. apply wf_set_sink_objs; [assumption|]. now rewrite length_insert.
Qed.

Lemma wf_sink_setLevel (s : sink_ptr) (lvl : LogLevel) (w w' : World) :
  wf_World w -> sink_setLevel s lvl w = Some w' -> wf_World w'.
Proof.
  intros Hwf H. unfold sink_setLevel in H. destruct (sink_objs w !! s); [|discriminate].
  injection H as <-. apply wf_set_sink_objs; [assumption|]. now rewrite length_insert.
Qed.

Lemma same_config_refl (w : World) : same_config w w.
Proof. repeat split. Qed.

Lemma same_config_trans (w1 w2 w3 : World) :
  same_config w1 w2 -> same_config w2 w3 -> same_config w1 w3.
Proof. intros (?&?&?&?) (?&?&?&?). repeat split; congruence. Qed.

Lemma wf_same_config (w w' : World) : same_config w w' -> wf_World w -> wf_World w'.
Proof.
  intros (Ho & Hr & Hl & Hs) [H1 H2 H3 H4 H5].
  split; unfold logger_of in *; rewrite ?Ho, ?Hr, ?Hl, ?Hs; auto.
Qed.

Section Emission.

Context {P : Platform}.

Lemma appends_refl (w : World) : appends w w.
Proof. split; [apply same_config_refl | exists []; now rewrite app_nil_r]. Qed.

Lemma appends_trans (w1 w2 w3 : World) : appends w1 w2 -> appends w2 w3 -> appends w1 w3.
Proof.
  intros [H1 (n1 & E1)] [H2 (n2 & E2)]. split; [eapply same_config_trans; eassumption|].
  exists (n1 ++ n2). rewrite E2, E1. now rewrite app_assoc.
Qed.

Lemma sink_log_appends (s : sink_ptr) (e : basic_log_entry) (w w' : World) :
  sink_log s e w = Some w' -> appends w w'.
Proof.
  unfold sink_log. destruct (sink_objs w !! s) as [o|]; [|discriminate].
  destruct (level_ge _ _); [|intros [= <-]; apply appends_refl].
  destruct (formatMessage _ _ _) as [text|]; [|discriminate].
  intros [= <-]. split; [repeat split|]. now exists [(s, text)].
Qed.

Lemma log_sinks_appends (ss : list sink_ptr) (e : basic_log_entry) (w w' : World) :
  log_sinks ss e w = Some w' -> appends w w'.
Proof.
  revert w. induction ss as [|s ss IH]; simpl; intros w H.
  - injection H as <-. apply appends_refl.
  - destruct (sink_log s e w) as [w1|] eqn:E; [|discriminate].
    eapply appends_trans; [eapply sink_log_appends, E | apply IH, H].
Qed.

Lemma logEntry_fuel_appends (fuel : nat) (l : logger_ptr) (e : basic_log_entry)
    (w w' : World) :
  logEntry_fuel fuel l e w = Some w' -> appends w w'.
Proof.
  revert l w. induction fuel as [|fuel IH]; simpl; intros l w H; [discriminate|].
  destruct (objs w !! l) as [o|]; [|discriminate].
  destruct (log_sinks (sinks o) e w) as [w1|] eqn:E; [|discriminate].
  apply log_sinks_appends in E.
  destruct (additive o); [|injection H as <-; assumption].
  destruct (parent o) as [p|]; [|injection H as <-; assumption].
  eapply appends_trans; [exact E | eapply IH, H].
Qed.

Lemma log_appends (now : Z) (l : logger_ptr) (lvl : LogLevel) (msg : string)
    (context : log_context) (w w' : World) :
  log now l lvl msg context w = Some w' -> appends w w'.
Proof.
  unfold log. destruct (getLevel l w); [|discriminate].
  destruct (level_lt _ _); [intros [= <-]; apply appends_refl|].
  apply logEntry_fuel_appends.
Qed.

Lemma destroy_appends (s : basic_log_stream) (w w' : World) :
  destroy s w = Some w' -> appends w w'.
Proof. apply logEntry_fuel_appends. Qed.

Lemma wf_L3PP_LOG (now : Z) (lvl : LogLevel) (channel : string)
    (expr : list streamable) (context : log_context) (w w' : World) :
  wf_World w -> L3PP_LOG now lvl channel expr context w = Some w' -> wf_World w'.
Proof.
  intros Hwf H. unfold L3PP_LOG in H.
  destruct (getLogger_spec channel w Hwf) as (a & w1 & E & Hwf1 & _ & _).
  rewrite E in H.
  destruct (getLevel a w1); [|discriminate].
  destruct (level_le _ _); [|now injection H as <-].
  apply destroy_appends in H as [H _]. eapply wf_same_config; eassumption.
Qed.

Lemma wf_getLogger (nm : string) (l : logger_ptr) (w w' : World) :
  wf_World w -> getLogger nm w = Some (l, w') -> wf_World w'.
Proof.
  intros Hwf H. destruct (getLogger_spec nm w Hwf) as (a & w1 & E & Hwf1 & _ & _).
  congruence.
Qed.

Lemma wf_getRootLogger (w : World) : wf_World w -> wf_World (getRootLogger w).2.
Proof. intros Hwf. apply (getRootLogger_spec "" w Hwf). Qed.

Lemma wf_appends (w w' : World) : wf_World w -> appends w w' -> wf_World w'.
Proof. intros Hwf [H _]. eapply wf_same_config; eassumption. Qed.

Create HintDb wf discriminated.

#[local] Hint Resolve wf_getRootLogger wf_getLogger wf_setLevel wf_setAdditive
  wf_addSink wf_removeSink wf_create wf_setFormatter wf_sink_setLevel
  wf_L3PP_LOG wf_appends log_appends destroy_appends : wf.

Lemma step_wf (w w' : World) : wf_World w -> step w w' -> wf_World w'.
Proof. intros Hwf Hstep. destruct Hstep; eauto with wf. Qed.

(** Every reachable state is well formed. *)
Lemma reachable_wf (w : World) : reachable w -> wf_World w.
Proof.
  induction 1 as [|w w' _ IH Hstep]; [apply wf_initial | eapply step_wf; eassumption].
Qed.

End Emission.

(** * Level resolution *)

Lemma getLevel_fuel_resolves (h : list basic_logger) :
  (forall a o, h !! a = Some o ->
     match parent o with Some p => (p < a)%nat | None => level o <> INHERIT end) ->
  forall (fuel : nat) (l : logger_ptr) (o : basic_logger),
    (l < fuel)%nat -> h !! l = Some o ->
    exists m om, resolves_to h l m /\ h !! m = Some om /\ level om <> INHERIT /\
                 getLevel_fuel fuel h l = Some (level om).
Proof.
  intros Hwf. induction fuel as [|fuel IH]; intros l o Hlt Hl; [lia|].
  simpl. rewrite Hl. destruct (bool_decide (level o = INHERIT)) eqn:Hd.
  - apply bool_decide_eq_true_1 in Hd. pose proof (Hwf _ _ Hl) as Hp.
    destruct (parent o) as [p|] eqn:Ep; [|contradiction].
    assert (Hpv : is_Some (h !! p)).
    { apply lookup_lt_is_Some. apply lookup_lt_Some in Hl. lia. }
    destruct Hpv as (op & Hop).
    destruct (IH p op ltac:(lia) Hop) as (m & om & Hres & Hm & Hc & Hg).
    exists m, om. split; [|auto]. eapply resolves_up; eassumption.
  - apply bool_decide_eq_false_1 in Hd. exists l, o.
    split; [eapply resolves_here; eassumption | auto].
Qed.

Lemma getLevel_resolves (w : World) (l : logger_ptr) (o : basic_logger) :
  wf_World w -> objs w !! l = Some o ->
  exists m om, resolves_to (objs w) l m /\ objs w !! m = Some om /\
               level om <> INHERIT /\ getLevel l w = Some (level om).
Proof.
  intros Hwf Hl. unfold getLevel.
  eapply getLevel_fuel_resolves; [apply (wf_parent _ Hwf) | | exact Hl].
  eapply lookup_lt_Some, Hl.
Qed.

(** The nearest concrete ancestor is determined. *)
Lemma resolves_to_unique (h : list basic_logger) (l m m' : logger_ptr) :
  resolves_to h l m -> resolves_to h l m' -> m = m'.
Proof.
  induction 1 as [l o Hl Hc|l o p m Hl Hi Hp _ IH]; intros H'; inversion H'; subst.
  - reflexivity.
  - congruence.
  - congruence.
  - apply IH. congruence.
Qed.

Lemma level_lt_ge (a b : LogLevel) : level_lt a b = negb (level_ge a b).
Proof.
  unfold level_lt, level_ge.
  destruct (Z.ltb_spec (level_value a) (level_value b)),
           (Z.leb_spec (level_value b) (level_value a)); simpl; auto; lia.
Qed.

Lemma level_le_ge (a b : LogLevel) : level_le a b = level_ge b a.
Proof. reflexivity. Qed.

(** * Streams without a width *)

Lemma string_app_nil_r (s : string) : s +:+ "" = s.
Proof. induction s as [|a s IH]; [reflexivity | rewrite string_app_cons; now f_equal]. Qed.

Lemma padded_no_width (os : ostream) (s : string) :
  (os_width os <= 0)%Z -> padded os s = s.
Proof.
  intros H. unfold padded.
  replace (Z.to_nat (os_width os - Z.of_nat (String.length s))) with 0%nat by lia.
  simpl. destruct (os_adjust os); auto using string_app_nil_r.
Qed.

Lemma put_no_width (os : ostream) (s : string) :
  os_width os = 0 -> os_buf (put s os) = os_buf os +:+ s /\ os_width (put s os) = 0.
Proof. intros H. simpl. rewrite padded_no_width by lia. auto. Qed.

Lemma stream_level_no_width (os : ostream) (lvl : LogLevel) :
  os_width os = 0 ->
  os_buf (stream_level lvl os) = os_buf os +:+ level_text lvl /\
  os_width (stream_level lvl os) = 0.
Proof.
  intros H. destruct lvl; unfold stream_level; apply put_no_width; assumption.
Qed.

Lemma insert_values_buf (vals : list streamable) (s : basic_log_stream) :
  os_width (ls_stream s) = 0 ->
  ls_entry (fold_left stream_insert vals s) = ls_entry s /\
  os_buf (ls_stream (fold_left stream_insert vals s)) =
    os_buf (ls_stream s) +:+ concat_text vals.
Proof.
  revert s. induction vals as [|v vals IH]; intros s Hw; simpl.
  - now rewrite string_app_nil_r.
  - destruct (IH (stream_insert s v)) as [He Hb].
    + simpl. reflexivity.
    + rewrite He, Hb. simpl. rewrite padded_no_width by lia.
      split; [reflexivity | apply string_app_assoc].
Qed.


(** * The fan-out of an entry *)

Section FanOut.

Context {P : Platform}.

Lemma attached_on_chain_unfold (w : World) (l : logger_ptr) (o : basic_logger)
    (s : sink_ptr) :
  objs w !! l = Some o ->
  attached_on_chain w l s <->
  s ∈ sinks o \/
  (additive o = true /\ exists p, parent o = Some p /\ attached_on_chain w p s).
Proof.
  intros Hl. split.
  - intros (m & om & Hc & Hm & Hs). inversion Hc; subst.
    + left. congruence.
    + right. assert (o0 = o) by congruence. subst o0.
      split; [assumption|]. exists p. split; [assumption|]. now exists m, om.
  - intros [Hs|(Ha & p & Hp & m & om & Hc & Hm & Hs)].
    + exists l, o. split; [constructor | auto].
    + exists m, om. split; [|auto]. eapply chain_up; eassumption.
Qed.

Lemma same_config_attached (w w' : World) (l : logger_ptr) (s : sink_ptr) :
  same_config w w' -> attached_on_chain w' l s <-> attached_on_chain w l s.
Proof. intros (Ho & _). unfold attached_on_chain. now rewrite Ho. Qed.

Lemma same_config_floor (w w' : World) (s : sink_ptr) (lvl : LogLevel) :
  same_config w w' -> passes_floor w' s lvl <-> passes_floor w s lvl.
Proof. intros (_ & _ & _ & Hs). unfold passes_floor. now rewrite Hs. Qed.

Lemma sink_log_spec (w0 w : World) (s : sink_ptr) (e : basic_log_entry) :
  same_config w0 w -> renderable w0 e -> (s < length (sink_objs w0))%nat ->
  exists w' new, sink_log s e w = Some w' /\ same_config w0 w' /\
    output w' = output w ++ new /\
    forall x, (exists t, (x, t) ∈ new) <-> x = s /\ passes_floor w0 s (entry_level e).
Proof.
  intros Hsc Hr Hs. destruct Hsc as (Ho & Hroot & Hl & Hsk).
  apply lookup_lt_is_Some in Hs as (o & Hso).
  unfold sink_log. rewrite Hsk, Hso, Ho.
  destruct (level_ge (entry_level e) (sink_level o)) eqn:Hge.
  - destruct (Hr s o Hso) as (text & ->).
    exists (write s text w), [(s, text)].
    split; [reflexivity|]. split; [repeat split; assumption|]. split; [reflexivity|].
    intros x. split.
    + intros (t & Ht). apply list_elem_of_singleton in Ht. injection Ht as -> ->.
      split; [reflexivity|]. now exists o.
    + intros (-> & _). exists text. now apply list_elem_of_singleton.
  - exists w, []. split; [reflexivity|]. split; [repeat split; assumption|].
    split; [now rewrite app_nil_r|].
    intros x. split.
    + intros (t & Ht). now apply elem_of_nil in Ht.
    + intros (-> & o' & Ho' & Hge'). congruence.
Qed.

Lemma log_sinks_spec (w0 : World) (e : basic_log_entry) (ss : list sink_ptr) :
  renderable w0 e -> (forall s, s ∈ ss -> (s < length (sink_objs w0))%nat) ->
  forall w, same_config w0 w ->
  exists w' new, log_sinks ss e w = Some w' /\ same_config w0 w' /\
    output w' = output w ++ new /\
    forall x, (exists t, (x, t) ∈ new) <-> x ∈ ss /\ passes_floor w0 x (entry_level e).
Proof.
  intros Hr. induction ss as [|s ss IH]; intros Hv w Hsc; simpl.
  - exists w, []. split; [reflexivity|]. split; [assumption|].
    split; [now rewrite app_nil_r|]. intros x. split.
    + intros (t & Ht). now apply elem_of_nil in Ht.
    + intros (Hx & _). now apply elem_of_nil in Hx.
  - destruct (sink_log_spec w0 w s e Hsc Hr) as (w1 & n1 & -> & Hsc1 & Ho1 & Hn1).
    { apply Hv. now left. }
    destruct (IH (fun x Hx => Hv x (list_elem_of_further _ _ _ Hx)) w1 Hsc1)
      as (w2 & n2 & -> & Hsc2 & Ho2 & Hn2).
    exists w2, (n1 ++ n2). split; [reflexivity|]. split; [assumption|].
    split; [rewrite Ho2, Ho1; now rewrite app_assoc|].
    intros x. split.
    + intros (t & [Ht|Ht]%elem_of_app).
      * destruct (proj1 (Hn1 x) (ex_intro _ t Ht)) as (-> & Hf).
        split; [now left | assumption].
      * destruct (proj1 (Hn2 x) (ex_intro _ t Ht)) as (Hx & Hf).
        split; [now right | assumption].
    + intros ([->|Hx]%elem_of_cons & Hf).
      * destruct (proj2 (Hn1 s) (conj eq_refl Hf)) as (t & Ht).
        exists t. apply elem_of_app. now left.
      * destruct (proj2 (Hn2 x) (conj Hx Hf)) as (t & Ht).
        exists t. apply elem_of_app. now right.
Qed.

Lemma logEntry_fuel_spec (w0 : World) (e : basic_log_entry) :
  wf_World w0 -> renderable w0 e ->
  forall (fuel : nat) (l : logger_ptr) (w : World),
    same_config w0 w -> (l < fuel)%nat -> (l < length (objs w0))%nat ->
    exists w' new, logEntry_fuel fuel l e w = Some w' /\ same_config w0 w' /\
      output w' = output w ++ new /\
      forall x, (exists t, (x, t) ∈ new) <->
                attached_on_chain w0 l x /\ passes_floor w0 x (entry_level e).
Proof.
  intros Hwf Hr. induction fuel as [|fuel IH]; intros l w Hsc Hlt Hv; [lia|].
  apply lookup_lt_is_Some in Hv as (o & Hl).
  simpl. rewrite (proj1 Hsc), Hl.
  destruct (log_sinks_spec w0 e (sinks o) Hr (fun s Hs => wf_sinks _ Hwf _ _ _ Hl Hs) w Hsc)
    as (w1 & n1 & -> & Hsc1 & Ho1 & Hn1).
  pose proof (attached_on_chain_unfold w0 l o) as Hunf.
  assert (Hstop : (additive o = false \/ parent o = None) ->
            forall x, (exists t, (x, t) ∈ n1) <->
                      attached_on_chain w0 l x /\ passes_floor w0 x (entry_level e)).
  { intros Hcase x. rewrite (Hunf x Hl), Hn1. split.
    - intros (Hx & Hf). auto.
    - intros ([Hx|(Ha & p & Hp & _)] & Hf); [auto|].
      destruct Hcase; congruence. }
  destruct (additive o) eqn:Ha.
  - destruct (parent o) as [p|] eqn:Hp.
    + pose proof (wf_parent _ Hwf _ _ Hl) as Hpl. rewrite Hp in Hpl.
      destruct (IH p w1 Hsc1 ltac:(lia)) as (w2 & n2 & -> & Hsc2 & Ho2 & Hn2).
      { apply lookup_lt_Some in Hl. lia. }
      exists w2, (n1 ++ n2). split; [reflexivity|]. split; [assumption|].
      split; [rewrite Ho2, Ho1; now rewrite app_assoc|].
      intros x. rewrite (Hunf x Hl). split.
      * intros (t & [Ht|Ht]%elem_of_app).
        -- destruct (proj1 (Hn1 x) (ex_intro _ t Ht)) as (Hx & Hf). auto.
        -- destruct (proj1 (Hn2 x) (ex_intro _ t Ht)) as (Hx & Hf).
           split; [|assumption]. right. split; [reflexivity|]. now exists p.
      * intros ([Hx|(_ & p' & Hp' & Hx)] & Hf).
        -- destruct (proj2 (Hn1 x) (conj Hx Hf)) as (t & Ht).
           exists t. apply elem_of_app. now left.
        -- injection Hp' as <-.
           destruct (proj2 (Hn2 x) (conj Hx Hf)) as (t & Ht).
           exists t. apply elem_of_app. now right.
    + exists w1, n1. split; [reflexivity|]. split; [assumption|].
      split; [assumption|]. apply Hstop. now right.
  - exists w1, n1. split; [reflexivity|]. split; [assumption|].
    split; [assumption|]. apply Hstop. now left.
Qed.

Lemma delivered_new (w w' : World) (new : list (sink_ptr * string)) (s : sink_ptr) :
  output w' = output w ++ new -> delivered s w w' <-> exists t, (s, t) ∈ new.
Proof.
  intros H. unfold delivered, emitted. rewrite H.
  rewrite drop_app_length. reflexivity.
Qed.

(** The fan-out returns, and it writes to exactly the sinks attached
    on the additive chain whose floor admits the level. *)
Lemma logEntry_spec (w : World) (l : logger_ptr) (e : basic_log_entry) :
  wf_World w -> renderable w e -> (l < length (objs w))%nat ->
  exists w', logEntry l e w = Some w' /\ same_config w w' /\
    forall s, delivered s w w' <->
              attached_on_chain w l s /\ passes_floor w s (entry_level e).
Proof.
  intros Hwf Hr Hl. unfold logEntry.
  destruct (logEntry_fuel_spec w e Hwf Hr (length (objs w)) l w
              (same_config_refl w) Hl Hl) as (w' & new & E & Hsc & Ho & Hn).
  exists w'. split; [assumption|]. split; [assumption|].
  intros s. rewrite (delivered_new _ _ _ _ Ho). apply Hn.
Qed.

Lemma delivered_nothing (w : World) (s : sink_ptr) : ~ delivered s w w.
Proof.
  unfold delivered, emitted. rewrite drop_all. intros (t & H).
  now apply elem_of_nil in H.
Qed.

End FanOut.

(** * The registry *)

Section Registry.

Context {P : Platform}.

Lemma getLogger_known (nm : string) (a : logger_ptr) (w : World) :
  logger_of w nm a -> getLogger nm w = Some (a, w).
Proof.
  unfold logger_of, getLogger. simpl. intros H.
  destruct (String.length nm =? 0)%nat eqn:Hz.
  - apply length_zero_empty in Hz as ->. simpl in H.
    unfold getRootLogger. now rewrite H.
  - destruct (decide (nm = "")) as [->|Hne]; [discriminate|]. now rewrite H.
Qed.

Lemma wf_parent_linked (w : World) : wf_World w -> parent_linked w.
Proof.
  intros Hwf k a H.
  destruct (wf_registered _ Hwf _ _ H) as (Hne & o & p & Ho & Hn & Hp & Hl).
  exists o, p. split; [assumption|]. split; [assumption|]. split; [assumption|].
  unfold parent_name in Hl. destruct (rfind k "."%char) as [n|] eqn:E.
  - left. exists (substr0 k n). split; [now apply parent_name_Some | assumption].
  - right. split; [now apply parent_name_None | exact Hl].
Qed.

(** In a well-formed state that holds the logger of [nm], every name on
    the path of [nm] has its logger. *)
Lemma path_populated (w : World) :
  wf_World w ->
  forall (n : nat) (nm : string) (a : logger_ptr),
    (String.length nm < n)%nat -> logger_of w nm a ->
    forall k, on_name_path k nm -> exists b, logger_of w k b.
Proof.
  intros Hwf. induction n as [|n IH]; intros nm a Hlen Ha k Hk; [lia|].
  destruct (decide (nm = "")) as [->|Hne].
  - assert (k = "") as ->.
    { destruct Hk as [ -> | [H | -> ] ]; auto.
      apply dotted_prefix_shorter in H. simpl in H. lia. }
    eauto.
  - assert (Hpar : exists p, logger_of w (parent_name nm) p).
    { unfold logger_of in Ha. destruct (decide (nm = "")); [contradiction|].
      destruct (wf_registered _ Hwf _ _ Ha) as (_ & o & p & _ & _ & _ & Hl). eauto. }
    destruct Hpar as (p & Hp).
    pose proof (parent_name_shorter nm Hne) as Hsh.
    destruct Hk as [ -> | [H | -> ] ].
    + eauto.
    + apply (IH (parent_name nm) p ltac:(lia) Hp).
      destruct (dotted_prefix_parent _ _ H) as [ -> | H']; [now left | right; now left].
    + apply (IH (parent_name nm) p ltac:(lia) Hp). right; now right.
Qed.

(** C7. [getLogger] returns for every name, the empty one included; a
    second call with the same name returns the identical instance and
    leaves the state as it is; that instance carries the name, and no
    other instance does. For the empty name it is the root. *)
Theorem C7_getLogger_idempotent (nm : string) (w : World) :
  reachable w ->
  exists a w', getLogger nm w = Some (a, w') /\
               getLogger nm w' = Some (a, w') /\
               named w' nm a /\
               (forall b, named w' nm b -> b = a) /\
               (nm = "" -> getRootLogger w' = (a, w')).
Proof.
  intros Hwf%reachable_wf.
  destruct (getLogger_spec nm w Hwf) as (a & w' & E & Hwf' & Hlog & _).
  exists a, w'. split; [exact E|]. split; [now apply getLogger_known|].
  assert (Hn : named w' nm a) by (now apply logger_of_valid).
  split; [assumption|]. split.
  - intros b Hb. eapply named_unique; eassumption.
  - intros ->. unfold logger_of in Hlog. simpl in Hlog.
    unfold getRootLogger. now rewrite Hlog.
Qed.

(** C8. In every reachable state the registry obeys the prefix-parent
    relation. A request for [nm] returns and keeps all instances that
    were there; afterwards the name itself, each of its dotted prefixes
    and the empty name have exactly one instance each, the relation
    holds again, and every instance that was created carries one of
    these names, one that no instance carried before. *)
Theorem C8_getLogger_creates_ancestors (nm : string) (w : World) :
  reachable w ->
  parent_linked w /\
  exists a w' new,
    getLogger nm w = Some (a, w') /\
    parent_linked w' /\
    (forall k, on_name_path k nm ->
       exists b, logger_of w' k b /\ named w' k b /\ forall c, named w' k c -> c = b) /\
    objs w' = objs w ++ new /\
    (forall o, o ∈ new -> on_name_path (name o) nm /\ forall b, ~ named w (name o) b).
Proof.
  intros Hwf%reachable_wf. split; [now apply wf_parent_linked|].
  destruct (getLogger_spec nm w Hwf) as (a & w' & E & Hwf' & Hlog & Hg).
  destruct (g_objs _ _ _ Hg) as (new & Hobjs & Hnew).
  exists a, w', new. split; [exact E|]. split; [now apply wf_parent_linked|].
  split; [|split; assumption].
  intros k Hk.
  destruct (path_populated w' Hwf' _ nm a (Nat.lt_succ_diag_r _) Hlog k Hk) as (b & Hb).
  exists b. split; [assumption|].
  assert (Hn : named w' k b) by (now apply logger_of_valid).
  split; [assumption|]. intros c Hc. eapply named_unique; eassumption.
Qed.

End Registry.

(** * Levels *)

Section Levels.

Context {P : Platform}.

(** C6. In every reachable state [getLevel] returns for every logger:
    the stored level when that is concrete, and otherwise the stored
    level of the nearest ancestor whose stored level is not [INHERIT],
    however long the chain of inheriting loggers is. The result is never
    [INHERIT], and the root's stored level is concrete. *)
Theorem C6_getLevel_nearest_concrete (w : World) (l : logger_ptr) (o : basic_logger) :
  reachable w -> objs w !! l = Some o ->
  (level o <> INHERIT -> getLevel l w = Some (level o)) /\
  (level o = INHERIT ->
     exists p m om, parent o = Some p /\ resolves_to (objs w) p m /\
                    objs w !! m = Some om /\ level om <> INHERIT /\
                    getLevel l w = Some (level om)) /\
  (exists lv, getLevel l w = Some lv /\ lv <> INHERIT) /\
  (forall r, root_logger w = Some r ->
     exists ro, objs w !! r = Some ro /\ level ro <> INHERIT).
Proof.
  intros Hwf%reachable_wf Hl.
  destruct (getLevel_resolves w l o Hwf Hl) as (m & om & Hres & Hm & Hc & Hg).
  split; [|split; [|split]].
  - intros Hcon. inversion Hres; subst; [|congruence].
    assert (om = o) by congruence. now subst.
  - intros Hinh. inversion Hres; subst; [congruence|].
    assert (o0 = o) by congruence. subst o0.
    exists p, m, om. auto.
  - exists (level om). auto.
  - intros r Hr. destruct (wf_root _ Hwf _ Hr) as (ro & Hro & Hp & _).
    exists ro. split; [assumption|].
    pose proof (wf_parent _ Hwf _ _ Hro) as H. now rewrite Hp in H.
Qed.

(** C5. In every reachable state, [setLevel(INHERIT)] on the root
    returns and leaves the whole state, the stored level included, as it
    was. A message emitted with level [INHERIT] is not ignored:
    [INHERIT] is not below any effective level and passes every sink
    floor, so [log] hands the entry to the fan-out. *)
Theorem C5_inherit_root_noop_message_passes (w : World) :
  reachable w ->
  (forall r, root_logger w = Some r -> setLevel r INHERIT w = Some w) /\
  (forall now l msg context, (l < length (objs w))%nat ->
     log now l INHERIT msg context w =
     logEntry l (new_entry_msg now context l INHERIT msg) w) /\
  (forall floor, level_ge INHERIT floor = true).
Proof.
  intros Hwf%reachable_wf. split; [|split].
  - intros r Hr. destruct (wf_root _ Hwf _ Hr) as (ro & Hro & Hp & _).
    unfold setLevel. rewrite Hro, Hp. reflexivity.
  - intros now l msg context (o & Hl)%lookup_lt_is_Some.
    destruct (getLevel_resolves w l o Hwf Hl) as (m & om & _ & _ & _ & Hg).
    unfold log. rewrite Hg. now destruct (level om).
  - now intros [].
Qed.

End Levels.

(** * Emission *)

Section EmissionClaims.

Context {P : Platform}.

Lemma destroy_unfold (s : basic_log_stream) (w : World) :
  destroy s w =
  logEntry (entry_logger (ls_entry s))
           (set_msg (os_buf (ls_stream s)) (ls_entry s)) w.
Proof. reflexivity. Qed.

(** Delivery, path by path. In a reachable state, for an entry that
    every sink can render: the fan-out [logEntry] at a logger [l]
    returns, changes nothing but the output, and writes to a sink iff
    the sink is attached to a logger on the additive chain of [l] and
    its floor admits the level. The message-based [log] returns and
    writes to a sink iff, moreover, the level is not below the effective
    level of [l]. The destructor of a stream accumulator is the bare
    fan-out: the effective level of the logger plays no part in it. *)
Lemma delivery_by_path (w : World) (l : logger_ptr) :
  reachable w -> (l < length (objs w))%nat ->
  (forall e, renderable w e ->
     exists w', logEntry l e w = Some w' /\ same_config w w' /\
       forall s, delivered s w w' <->
                 attached_on_chain w l s /\ passes_floor w s (entry_level e)) /\
  (forall now lvl msg context,
     renderable w (new_entry_msg now context l lvl msg) ->
     exists w' effective,
       log now l lvl msg context w = Some w' /\ same_config w w' /\
       getLevel l w = Some effective /\
       forall s, delivered s w w' <->
                 attached_on_chain w l s /\ level_ge lvl effective = true /\
                 passes_floor w s lvl) /\
  (forall st, entry_logger (ls_entry st) = l ->
     renderable w (set_msg (os_buf (ls_stream st)) (ls_entry st)) ->
     exists w', destroy st w = Some w' /\ same_config w w' /\
       forall s, delivered s w w' <->
                 attached_on_chain w l s /\
                 passes_floor w s (entry_level (ls_entry st))).
Proof.
  intros Hwf%reachable_wf Hl. split; [|split].
  - intros e Hr. now apply logEntry_spec.
  - intros now lvl msg context Hr.
    destruct (lookup_lt_is_Some_2 _ _ Hl) as (o & Ho).
    destruct (getLevel_resolves w l o Hwf Ho) as (m & om & _ & _ & _ & Hg).
    unfold log. rewrite Hg. rewrite level_lt_ge.
    destruct (level_ge lvl (level om)) eqn:Hge; simpl.
    + destruct (logEntry_spec w l _ Hwf Hr Hl) as (w' & E & Hsc & Hd).
      exists w', (level om). split; [assumption|]. split; [assumption|].
      split; [reflexivity|]. intros s. rewrite Hd. simpl. rewrite Hge. tauto.
    + exists w, (level om). split; [reflexivity|]. split; [apply same_config_refl|].
      split; [reflexivity|]. intros s. split.
      * intros H. now apply delivered_nothing in H.
      * intros (_ & H & _). congruence.
  - intros st <- Hr. rewrite destroy_unfold.
    destruct (logEntry_spec w _ _ Hwf Hr Hl) as (w' & E & Hsc & Hd).
    exists w'. split; [assumption|]. split; [assumption|]. exact Hd.
Qed.

(** Below the effective level, path by path. In a reachable state, a
    message-based [log] at a level below the effective level returns
    the state as it was, whatever the formatters of the sinks are; the
    logging macro writes nothing, its only effect being the lookup of
    the channel. The destructor of the accumulator returned by the
    stream-based [log] has no such test: it writes to every sink on the
    additive chain whose floor admits the level. *)
Lemma below_level_by_path (w : World) (lvl : LogLevel) :
  reachable w ->
  (forall l effective now msg context,
     getLevel l w = Some effective -> level_lt lvl effective = true ->
     log now l lvl msg context w = Some w) /\
  (forall now channel expr context l1 w1 effective1,
     getLogger channel w = Some (l1, w1) -> getLevel l1 w1 = Some effective1 ->
     level_lt lvl effective1 = true ->
     L3PP_LOG now lvl channel expr context w = Some w1 /\ output w1 = output w) /\
  (forall l effective now context vals,
     getLevel l w = Some effective ->
     renderable w (new_entry_msg now context l lvl (concat_text vals)) ->
     exists w', destroy (fold_left stream_insert vals (log_stream now l lvl context)) w
                  = Some w' /\
       forall s, delivered s w w' <-> attached_on_chain w l s /\ passes_floor w s lvl).
Proof.
  intros Hreach. pose proof (reachable_wf _ Hreach) as Hwf.
  split; [|split].
  - intros l effective now msg context Hg Hlt. unfold log. now rewrite Hg, Hlt.
  - intros now channel expr context l1 w1 effective1 E Hg1 Hlt.
    unfold L3PP_LOG. rewrite E, Hg1.
    rewrite level_le_ge. rewrite level_lt_ge in Hlt.
    destruct (level_ge lvl effective1); [discriminate|]. split; [reflexivity|].
    destruct (getLogger_spec channel w Hwf) as (a & w1' & E' & _ & _ & Hgr).
    rewrite E in E'. injection E' as <- <-. apply (g_output _ _ _ Hgr).
  - intros l effective now context vals Hg Hr.
    assert (Hl : (l < length (objs w))%nat).
    { unfold getLevel in Hg. destruct (length (objs w)) eqn:En; [discriminate|].
      simpl in Hg. destruct (objs w !! l) eqn:El; [|discriminate].
      rewrite <- En. eapply lookup_lt_Some, El. }
    destruct (insert_values_buf vals (log_stream now l lvl context) eq_refl) as [He Hb].
    rewrite destroy_unfold, He, Hb. simpl.
    destruct (logEntry_spec w l _ Hwf Hr Hl) as (w' & E & _ & Hd).
    exists w'. split; [exact E | exact Hd].
Qed.

(** C2. Destroying an accumulator obtained from a logger, after a chain
    of insertions, performs exactly the fan-out of one entry whose
    message is the concatenation of the streamed texts. After a move
    construction the new object performs the fan-out that the source
    would have performed, and the source, when it is destroyed in its
    turn, performs a fan-out of its own with whatever its buffer was
    left with. *)
Theorem C2_stream_emission (now : Z) (l : logger_ptr) (lvl : LogLevel)
    (context : log_context) (vals : list streamable) (w : World) :
  let s := fold_left stream_insert vals (log_stream now l lvl context) in
  destroy s w = logEntry l (new_entry_msg now context l lvl (concat_text vals)) w /\
  forall msg' stream',
    destroy (move_construct msg' stream' s).1 w = destroy s w /\
    destroy (move_construct msg' stream' s).2 w =
      logEntry l (new_entry_msg now context l lvl (os_buf stream')) w.
Proof.
  destruct (insert_values_buf vals (log_stream now l lvl context) eq_refl) as [He Hb].
  simpl. split.
  - rewrite destroy_unfold, He, Hb. reflexivity.
  - intros msg' stream'. split; [reflexivity|].
    rewrite destroy_unfold. simpl. rewrite He. reflexivity.
Qed.

End EmissionClaims.

(** * Formatters *)

Section Formatters.

Context {P : Platform}.

(** The two justifications select the same adjustment. *)
Lemma basic_field_stream_justification (field : Field.t) (Width : Z) (Fill : ascii)
    (os : ostream) (h : list basic_logger) (context : basic_log_entry) :
  basic_field_stream field Width LEFT Fill os h context =
  basic_field_stream field Width RIGHT Fill os h context.
Proof. reflexivity. Qed.

(** With either justification the message field adds the fill
    characters that are missing up to the width, then the whole
    message: nothing is cut, and the padding comes first. *)
Lemma message_field_rendering (Width : Z) (j : Justification) (Fill : ascii)
    (os : ostream) (h : list basic_logger) (context : basic_log_entry) :
  exists os', basic_field_stream Field.Message Width j Fill os h context = Some os' /\
    os_buf os' =
      os_buf os +:+
      (replicate_char (Z.to_nat (Width - Z.of_nat (String.length (entry_msg context)))) Fill
       +:+ entry_msg context).
Proof. destruct j; eexists; split; reflexivity. Qed.

(** C3. The template formatter made of the logger-name field of width
    6 with [LEFT] justification and fill ['.'], the literal [" | "] and
    the message field renders the entry of the logger ["ab"] with
    message ["hi"] as ["....ab | hi"]: the fill goes before the name,
    and the rendering differs from ["ab.... | hi"]. *)
Theorem C3_left_field_padded_on_the_left :
  let h := [new_root; new_logger "ab" 0] in
  let e := new_entry_msg 0 log_context_default 1 INFO "hi" in
  let f := basic_template_formatter
             [basic_field Field.LoggerName 6 LEFT "."%char;
              literal (SString " | ");
              basic_field_default Field.Message] in
  format f h e = Some "....ab | hi" /\ format f h e <> Some "ab.... | hi".
Proof. split; [reflexivity | discriminate]. Qed.

(** C9. The default formatter renders every entry as the text of its
    level, [" - "], the message and a line feed; the texts of the levels
    are those of the streaming operator, and a [FATAL] entry with
    message ["boom"] gives ["FATAL - boom"] followed by a line feed. *)
Theorem C9_default_formatter (h : list basic_logger) (e : basic_log_entry) :
  format basic_formatter h e =
    Some (level_text (entry_level e) +:+ " - " +:+ entry_msg e +:+ String LF "") /\
  (level_text <$> [TRACE; DEBUG; INFO; WARN; ERR; FATAL; OFF] =
     ["TRACE"; "DEBUG"; "INFO"; "WARN"; "ERROR"; "FATAL"; "OFF"]) /\
  (forall now context l,
     format basic_formatter h (new_entry_msg now context l FATAL "boom") =
       Some ("FATAL - boom" +:+ String LF "")).
Proof.
  split; [|split; [reflexivity | reflexivity]].
  unfold format, insert_value.
  destruct (stream_level_no_width new_stringstream (entry_level e) eq_refl) as [B1 W1].
  destruct (put_no_width _ " - " W1) as [B2 W2].
  destruct (put_no_width _ (entry_msg e) W2) as [B3 W3].
  destruct (put_no_width _ (text_of (SChar LF)) W3) as [B4 _].
  rewrite B4, B3, B2, B1. simpl os_buf. simpl text_of.
  now rewrite !string_app_assoc.
Qed.

(** C10. The file-name field is defined exactly on the entries whose
    file name contains the path separator. When the file name is some
    text, a separator and a rest without separator, the field streams
    that rest; when the file name contains no separator, [strrchr]
    yields the null pointer and the rendering is undefined. The entry
    built from the default context, whose file name is empty, is among
    the latter, and every template formatter that starts with this
    field is undefined on it. *)
Theorem C10_filename_field_partial (Width : Z) (j : Justification) (Fill : ascii)
    (os : ostream) (h : list basic_logger) (e : basic_log_entry) :
  (basic_field_stream Field.FileName Width j Fill os h e = None <->
   ~ has_separator path_separator (filename (entry_context e))) /\
  (forall d b,
     filename (entry_context e) = d +:+ String path_separator b ->
     ~ has_separator path_separator b ->
     basic_field_stream Field.FileName Width j Fill os h e =
       Some (put b (std_right (setfill Fill (setw Width os))))) /\
  (forall now l lvl msg,
     basic_field_stream Field.FileName Width j Fill os h
       (new_entry_msg now log_context_default l lvl msg) = None) /\
  (forall now l lvl msg rest,
     format (basic_template_formatter (basic_field Field.FileName Width j Fill :: rest)) h
       (new_entry_msg now log_context_default l lvl msg) = None).
Proof.
  split; [|split; [|split]].
  - rewrite <- rfind_None_iff. unfold basic_field_stream, strrchr.
    destruct (rfind (filename (entry_context e)) path_separator);
      split; intros H; congruence.
  - intros d b Hf Hb. apply rfind_None_iff in Hb.
    unfold basic_field_stream, strrchr. rewrite Hf, (rfind_last d b _ Hb).
    rewrite c_str_from_app_cons. now destruct j.
  - intros now l lvl msg. reflexivity.
  - intros now l lvl msg rest. reflexivity.
Qed.

End Formatters.

(** * The concrete configuration

    [demo] is reachable, and its sink renders every entry. *)

Lemma demo_reachable : reachable (P := posix) demo.
Proof.
  apply reachable_step with demo_sink.
  - apply reachable_step with demo_loggers.
    + apply reachable_step with initial_World; [apply reachable_initial|].
      apply step_getLogger with "app.net" 2%nat. vm_compute. reflexivity.
    + apply step_create.
  - apply step_addSink with 0%nat 0%nat; [vm_compute; lia | reflexivity].
Qed.

Lemma demo_renderable (e : basic_log_entry) : renderable (P := posix) demo e.
Proof.
  intros s o H. destruct s as [|s]; [|destruct s; discriminate].
  vm_compute in H. injection H as <-. eexists. reflexivity.
Qed.

(** The loggers of the configuration: names, parents and levels. *)
Example demo_objs :
  objs demo =
  [ {| parent := None; name := ""; level := WARN; sinks := [0%nat]; additive := true |};
    {| parent := Some 0%nat; name := "app"; level := INHERIT; sinks := []; additive := true |};
    {| parent := Some 1%nat; name := "app.net"; level := INHERIT; sinks := [];
       additive := true |} ].
Proof. reflexivity. Qed.

(** An accumulator that goes out of scope writes once. *)
Example stream_emits_once :
  let s := fold_left stream_insert [SString "x="; SInt 5; SString " done"]
             (log_stream 0 0 INFO log_context_default) in
  destroy (P := posix) s demo = Some (write 0 ("INFO - x=5 done" +:+ String LF "") demo).
Proof. reflexivity. Qed.

(** An entry without separator in its file name cannot be logged to a
    sink whose formatter has the file-name field. *)
Example log_filename_undefined :
  forall w, setFormatter 0 (basic_template_formatter [basic_field_default Field.FileName]) demo
              = Some w ->
  log (P := posix) 0 0 FATAL "boom" log_context_default w = None.
Proof. intros w [= <-]. reflexivity. Qed.

(** A non-additive logger stops the propagation: an entry logged at
    ["app.net"] reaches the sink of ["app"] and not the sink of the
    root above it. *)
Example additive_boundary :
  log (P := posix) 0 2 ERR "down" log_context_default demo_cut =
    Some (write 1 ("ERROR - down" +:+ String LF "") demo_cut).
Proof. reflexivity. Qed.

(** The file-name field on a path and on a bare file name. *)
Example filename_field_examples :
  (os_buf <$> basic_field_stream (P := posix) Field.FileName 0 RIGHT " "%char
                new_stringstream []
                (new_entry_msg 0 (mk_log_context "src/net/tcp.cpp" 7 "run") 0 INFO "m"))
    = Some "tcp.cpp" /\
  basic_field_stream (P := posix) Field.FileName 0 RIGHT " "%char new_stringstream []
    (new_entry_msg 0 (mk_log_context "main.cpp" 7 "run") 0 INFO "m") = None.
Proof. split; reflexivity. Qed.

(** ** Instances of the theorems *)

Lemma C5_inherit_witness :
  reachable (P := posix) demo /\ setLevel 0 INHERIT demo = Some demo.
Proof.
  split; [apply demo_reachable|].
  apply (C5_inherit_root_noop_message_passes (P := posix) demo demo_reachable).
  reflexivity.
Defined.

Lemma C6_getLevel_witness :
  reachable (P := posix) demo /\
  objs demo !! 2%nat = Some (new_logger "app.net" 1) /\
  exists lv, getLevel 2 demo = Some lv /\ lv <> INHERIT.
Proof.
  split; [apply demo_reachable|]. split; [reflexivity|].
  apply (C6_getLevel_nearest_concrete (P := posix) demo 2 (new_logger "app.net" 1)
           demo_reachable eq_refl).
Defined.

Lemma C7_getLogger_witness :
  reachable (P := posix) demo /\
  exists a w', getLogger "app.net.tcp" demo = Some (a, w') /\
               getLogger "app.net.tcp" w' = Some (a, w') /\
               named w' "app.net.tcp" a /\
               (forall b, named w' "app.net.tcp" b -> b = a) /\
               ("app.net.tcp" = "" -> getRootLogger w' = (a, w')).
Proof.
  split; [apply demo_reachable|].
  apply (C7_getLogger_idempotent (P := posix) "app.net.tcp" demo demo_reachable).
Defined.

Lemma C8_getLogger_witness :
  reachable (P := posix) initial_World /\
  parent_linked initial_World /\
  exists a w' new,
    getLogger "a.b.c" initial_World = Some (a, w') /\
    parent_linked w' /\
    (forall k, on_name_path k "a.b.c" ->
       exists b, logger_of w' k b /\ named w' k b /\ forall c, named w' k c -> c = b) /\
    objs w' = objs initial_World ++ new /\
    (forall o, o ∈ new ->
       on_name_path (name o) "a.b.c" /\ forall b, ~ named initial_World (name o) b).
Proof.
  split; [apply reachable_initial|].
  apply (C8_getLogger_creates_ancestors (P := posix) "a.b.c" initial_World
           reachable_initial).
Defined.

(** A deeply nested name requested in the initial state: four
    instances, each the child of the one before. *)
Example getLogger_nested :
  exists w, getLogger "a.b.c" initial_World = Some (3%nat, w) /\
    (fun o => (name o, parent o)) <$> objs w =
    [("", None); ("a", Some 0%nat); ("a.b", Some 1%nat); ("a.b.c", Some 2%nat)].
Proof. eexists. split; [vm_compute; reflexivity | reflexivity]. Qed.

(** ** Where the code departs from the design document *)

(** C1. At ["app.net"], whose effective level is [WARN], the
    message-based [log] of an entry of level [DEBUG] delivers nothing,
    whereas the same entry streamed into the accumulator of that logger
    is delivered to the sink of the root: on the stream path the
    delivery condition, with its test of the level against the
    effective level of the logger, fails. *)
Theorem C1_stream_not_filtered :
  getLevel 2 demo = Some WARN /\ level_ge DEBUG WARN = false /\
  log (P := posix) 0 2 DEBUG "x" log_context_default demo = Some demo /\
  destroy (P := posix)
    (stream_insert (log_stream 0 2 DEBUG log_context_default) (SString "x")) demo
    = Some (write 0 ("DEBUG - x" +:+ String LF "") demo) /\
  delivered 0 demo (write 0 ("DEBUG - x" +:+ String LF "") demo) /\
  ~ (delivered 0 demo (write 0 ("DEBUG - x" +:+ String LF "") demo) <->
     attached_on_chain demo 2 0 /\ level_ge DEBUG WARN = true /\
     passes_floor demo 0 DEBUG).
Proof.
  assert (Hd : delivered 0 demo (write 0 ("DEBUG - x" +:+ String LF "") demo)).
  { exists ("DEBUG - x" +:+ String LF ""). apply list_elem_of_here. }
  split; [reflexivity|]. split; [reflexivity|]. split; [reflexivity|].
  split; [reflexivity|]. split; [exact Hd|].
  intros [H _]. destruct (H Hd) as (_ & Hge & _). discriminate.
Qed.

(** Moving an accumulator and letting both objects go out of scope
    writes twice. *)
Lemma C2_move_emits_twice :
  let s := fold_left stream_insert [SString "x="; SInt 5; SString " done"]
             (log_stream 0 0 INFO log_context_default) in
  let moved := move_construct "" new_stringstream s in
  exists w1 w2,
    destroy (P := posix) moved.1 demo = Some w1 /\
    destroy (P := posix) moved.2 w1 = Some w2 /\
    emitted demo w2 =
      [(0%nat, "INFO - x=5 done" +:+ String LF ""); (0%nat, "INFO - " +:+ String LF "")] /\
    length (emitted demo w2) <> 1%nat.
Proof.
  simpl. eexists. eexists. split; [reflexivity|]. split; [reflexivity|].
  split; [reflexivity | discriminate].
Qed.

(** C4. At the root, whose effective level is [WARN], the
    message-based [info] leaves the state as it is, whereas the
    accumulator of the stream-based [info], once a value is streamed
    into it and it goes out of scope, writes to the sink of the root:
    an entry below the effective level has an observable effect on the
    stream path. *)
Theorem C4_stream_below_level_writes :
  getLevel 0 demo = Some WARN /\ level_lt INFO WARN = true /\
  info (P := posix) 0 0 "x" log_context_default demo = Some demo /\
  destroy (P := posix)
    (stream_insert (log_stream 0 0 INFO log_context_default) (SString "x")) demo
    = Some (write 0 ("INFO - x" +:+ String LF "") demo) /\
  output (write 0 ("INFO - x" +:+ String LF "") demo) <> output demo.
Proof. repeat split; try reflexivity. discriminate. Qed.

(** A message of level [INHERIT] is written, with the level text
    ["???"]. *)
Lemma C5_inherit_message_delivered :
  log (P := posix) 0 2 INHERIT "x" log_context_default demo
    = Some (write 0 ("??? - x" +:+ String LF "") demo) /\
  delivered 0 demo (write 0 ("??? - x" +:+ String LF "") demo).
Proof.
  split; [reflexivity|]. exists ("??? - x" +:+ String LF ""). apply list_elem_of_here.
Qed.

(** * The writes of the fan-out, in order *)

Section FanOutOrder.

Context {P : Platform}.

Lemma writes_app (a b : list (sink_ptr * string)) (w : World) :
  writes (a ++ b) w = writes b (writes a w).
Proof. unfold writes. apply fold_left_app. Qed.

Lemma writes_config (new : list (sink_ptr * string)) (w : World) :
  same_config w (writes new w) /\ output (writes new w) = output w ++ new.
Proof.
  revert w. induction new as [|x new IH]; intros w; simpl.
  - split; [apply same_config_refl | now rewrite app_nil_r].
  - destruct (IH (write x.1 x.2 w)) as [Hc Ho]. split.
    + eapply same_config_trans; [|exact Hc]. repeat split.
    + rewrite Ho. simpl. rewrite <- app_assoc. now destruct x.
Qed.

Lemma emitted_writes (new : list (sink_ptr * string)) (w : World) :
  emitted w (writes new w) = new.
Proof.
  unfold emitted. rewrite (proj2 (writes_config new w)). apply drop_app_length.
Qed.

Lemma rendered_same_config (w0 w : World) (e : basic_log_entry) (s : sink_ptr) :
  same_config w0 w -> rendered w e s = rendered w0 e s.
Proof. intros (Ho & _ & _ & Hs). unfold rendered. now rewrite Ho, Hs. Qed.

Lemma renders_all_app (w : World) (e : basic_log_entry) (a b : list sink_ptr) :
  renders_all w e (a ++ b) <-> renders_all w e a /\ renders_all w e b.
Proof.
  unfold renders_all. split.
  - intros H. split; intros s Hs; apply H; apply elem_of_app; auto.
  - intros [Ha Hb] s [Hs|Hs]%elem_of_app; auto.
Qed.

Lemma sink_log_exact (w0 w : World) (s : sink_ptr) (e : basic_log_entry) :
  same_config w0 w -> renders w0 e s -> (s < length (sink_objs w0))%nat ->
  sink_log s e w = Some (writes (rendered w0 e s) w).
Proof.
  intros Hsc Hr Hs. rewrite <- (rendered_same_config w0 w e s Hsc).
  destruct Hsc as (Ho & _ & _ & Hsk).
  apply lookup_lt_is_Some in Hs as (o & Hso).
  unfold sink_log, rendered. rewrite Hsk, Hso, Ho.
  destruct (level_ge (entry_level e) (sink_level o)) eqn:Hge; [|reflexivity].
  now destruct (Hr o Hso Hge) as (text & ->).
Qed.

Lemma log_sinks_exact (w0 : World) (e : basic_log_entry) (ss : list sink_ptr) :
  renders_all w0 e ss -> (forall s, s ∈ ss -> (s < length (sink_objs w0))%nat) ->
  forall w, same_config w0 w ->
    log_sinks ss e w = Some (writes (flat_map (rendered w0 e) ss) w).
Proof.
  induction ss as [|s ss IH]; intros Hr Hv w Hsc; simpl; [reflexivity|].
  rewrite (sink_log_exact w0 w s e Hsc) by (try apply Hr; try apply Hv; now left).
  rewrite writes_app. apply IH.
  - intros x Hx. apply Hr. now right.
  - intros x Hx. apply Hv. now right.
  - eapply same_config_trans; [exact Hsc | apply writes_config].
Qed.

Lemma logEntry_fuel_exact (w0 : World) (e : basic_log_entry) :
  wf_World w0 ->
  forall (fuel : nat) (l : logger_ptr) (w : World),
    renders_all w0 e (chain_sinks_fuel fuel (objs w0) l) ->
    same_config w0 w -> (l < fuel)%nat -> (l < length (objs w0))%nat ->
    logEntry_fuel fuel l e w =
      Some (writes (flat_map (rendered w0 e) (chain_sinks_fuel fuel (objs w0) l)) w).
Proof.
  intros Hwf. induction fuel as [|fuel IH]; intros l w Hr Hsc Hlt Hv; [lia|].
  apply lookup_lt_is_Some in Hv as (o & Hl).
  simpl in Hr |- *. rewrite (proj1 Hsc), Hl. rewrite Hl in Hr.
  apply renders_all_app in Hr as [Hr1 Hr2].
  rewrite (log_sinks_exact w0 e (sinks o) Hr1 (fun s Hs => wf_sinks _ Hwf _ _ _ Hl Hs) w Hsc).
  rewrite flat_map_app, writes_app.
  destruct (additive o); [|reflexivity].
  pose proof (wf_parent _ Hwf _ _ Hl) as Hp.
  destruct (parent o) as [p|]; [|reflexivity].
  apply IH; [assumption| |lia|apply lookup_lt_Some in Hl; lia].
  eapply same_config_trans; [exact Hsc | apply writes_config].
Qed.

(** The list of the chain does not depend on the bound, once the bound
    exceeds the address. *)
Lemma chain_sinks_fuel_stable (h : list basic_logger) :
  (forall a o, h !! a = Some o ->
     match parent o with Some p => (p < a)%nat | None => level o <> INHERIT end) ->
  forall (f1 f2 : nat) (l : logger_ptr),
    (l < f1)%nat -> (l < f2)%nat -> chain_sinks_fuel f1 h l = chain_sinks_fuel f2 h l.
Proof.
  intros Hwf. induction f1 as [|f1 IH]; intros f2 l H1 H2; [lia|].
  destruct f2 as [|f2]; [lia|]. simpl.
  destruct (h !! l) as [o|] eqn:Hl; [|reflexivity].
  f_equal. destruct (additive o); [|reflexivity].
  pose proof (Hwf _ _ Hl) as Hp. destruct (parent o) as [p|]; [|reflexivity].
  apply IH; lia.
Qed.

Lemma chain_sinks_unfold (w : World) (l : logger_ptr) (o : basic_logger) :
  wf_World w -> objs w !! l = Some o ->
  chain_sinks w l =
    sinks o ++ (if additive o then
                  match parent o with
                  | Some p => chain_sinks w p
                  | None => []
                  end
                else []).
Proof.
  intros Hwf Hl. unfold chain_sinks.
  pose proof (lookup_lt_Some _ _ _ Hl) as Hlt.
  destruct (length (objs w)) as [|n] eqn:En; [lia|].
  simpl. rewrite Hl. f_equal. destruct (additive o); [|reflexivity].
  pose proof (wf_parent _ Hwf _ _ Hl) as Hp. destruct (parent o) as [p|]; [|reflexivity].
  apply (chain_sinks_fuel_stable (objs w) (wf_parent _ Hwf) n (S n) p); lia.
Qed.

Lemma logEntry_exact (w : World) (l : logger_ptr) (e : basic_log_entry) :
  wf_World w -> renders_all w e (chain_sinks w l) -> (l < length (objs w))%nat ->
  logEntry l e w = Some (writes (fanout w l e) w).
Proof.
  intros Hwf Hr Hl. unfold logEntry, fanout, chain_sinks.
  apply logEntry_fuel_exact; auto using same_config_refl.
Qed.

Lemma writes_to_rendered (w : World) (e : basic_log_entry) (s : sink_ptr)
    (ss : list sink_ptr) :
  (s ∈ ss -> renders w e s) -> passes_floor w s (entry_level e) ->
  writes_to s (flat_map (rendered w e) ss) = length (filter (fun x => x = s) ss).
Proof.
  intros Hr (o & Hso & Hge). unfold writes_to.
  induction ss as [|x ss IH]; [reflexivity|].
  simpl flat_map. rewrite filter_app, length_app, IH by (intros H; apply Hr; now right).
  rewrite filter_cons.
  destruct (decide (x = s)) as [->|Hne].
  - unfold rendered. rewrite Hso, Hge.
    destruct (Hr (list_elem_of_here _ _) o Hso Hge) as (text & ->).
    rewrite filter_cons. simpl. destruct (decide (s = s)); [reflexivity | congruence].
  - replace (length (filter (fun y => y.1 = s) (rendered w e x))) with 0%nat; [reflexivity|].
    unfold rendered. destruct (sink_objs w !! x) as [ox|]; [|reflexivity].
    destruct (level_ge (entry_level e) (sink_level ox)); [|reflexivity].
    destruct (formatMessage ox (objs w) e); [|reflexivity].
    rewrite filter_cons. simpl. destruct (decide (x = s)); [congruence | reflexivity].
Qed.

Lemma writes_to_rendered_blocked (w : World) (e : basic_log_entry) (s : sink_ptr)
    (ss : list sink_ptr) :
  ~ passes_floor w s (entry_level e) ->
  writes_to s (flat_map (rendered w e) ss) = 0%nat.
Proof.
  intros Hno. unfold writes_to.
  induction ss as [|x ss IH]; [reflexivity|].
  simpl flat_map. rewrite filter_app, length_app, IH.
  replace (length (filter (fun y => y.1 = s) (rendered w e x))) with 0%nat; [reflexivity|].
  unfold rendered. destruct (sink_objs w !! x) as [ox|] eqn:Hx; [|reflexivity].
  destruct (level_ge (entry_level e) (sink_level ox)) eqn:Hge; [|reflexivity].
  destruct (formatMessage ox (objs w) e); [|reflexivity].
  rewrite filter_cons. simpl. destruct (decide (x = s)) as [->|]; [|reflexivity].
  exfalso. apply Hno. now exists ox.
Qed.

(** X1. In a reachable state, for an entry that every sink met on the
    additive chain can render when its level admits the entry,
    [logEntry] at a logger first performs the writes of the sinks of
    that logger, one after the other in the order of their attachment,
    and then, when the logger is additive and has a parent, exactly the
    writes that [logEntry] at the parent performs; otherwise it stops
    after the own sinks. *)
Theorem X1_fanout_order (w : World) (l : logger_ptr) (o : basic_logger)
    (e : basic_log_entry) :
  reachable w -> renders_all w e (chain_sinks w l) -> objs w !! l = Some o ->
  exists w' w1,
    logEntry l e w = Some w' /\ log_sinks (sinks o) e w = Some w1 /\
    emitted w w1 = flat_map (rendered w e) (sinks o) /\
    match (if additive o then parent o else None) with
    | Some p => exists wp, logEntry p e w = Some wp /\
                           emitted w w' = emitted w w1 ++ emitted w wp
    | None => w' = w1
    end.
Proof.
  intros Hwf%reachable_wf Hr Hl.
  pose proof (lookup_lt_Some _ _ _ Hl) as Hlt.
  pose proof Hr as Hr'. rewrite (chain_sinks_unfold w l o Hwf Hl) in Hr'.
  apply renders_all_app in Hr' as [Hr1 Hr2].
  exists (writes (fanout w l e) w), (writes (flat_map (rendered w e) (sinks o)) w).
  split; [now apply logEntry_exact|].
  split.
  { apply log_sinks_exact; auto using same_config_refl.
    intros s Hs. apply (wf_sinks _ Hwf _ _ _ Hl Hs). }
  split; [apply emitted_writes|].
  assert (Hf : fanout w l e =
               flat_map (rendered w e) (sinks o) ++
               flat_map (rendered w e)
                 (if additive o then
                    match parent o with Some p => chain_sinks w p | None => [] end
                  else [])).
  { unfold fanout. rewrite (chain_sinks_unfold w l o Hwf Hl). apply flat_map_app. }
  pose proof (wf_parent _ Hwf _ _ Hl) as Hp.
  destruct (additive o); [|rewrite Hf; simpl; now rewrite app_nil_r].
  destruct (parent o) as [p|]; [|rewrite Hf; simpl; now rewrite app_nil_r].
  exists (writes (fanout w p e) w). split; [apply logEntry_exact; auto; lia|].
  rewrite !emitted_writes. exact Hf.
Qed.

(** X2. In a reachable state, for an entry that every sink met on the
    additive chain can render when its level admits the entry, a sink
    whose level admits the entry is written once for every attachment
    met on the chain: a sink attached twice receives the entry twice. A
    sink whose level rejects the entry is not written. *)
Theorem X2_fanout_multiplicity (w : World) (l : logger_ptr) (e : basic_log_entry)
    (s : sink_ptr) :
  reachable w -> renders_all w e (chain_sinks w l) -> (l < length (objs w))%nat ->
  exists w', logEntry l e w = Some w' /\
    (passes_floor w s (entry_level e) ->
       writes_to s (emitted w w') = length (filter (fun x => x = s) (chain_sinks w l))) /\
    (~ passes_floor w s (entry_level e) -> writes_to s (emitted w w') = 0%nat).
Proof.
  intros Hwf%reachable_wf Hr Hl.
  exists (writes (fanout w l e) w).
  split; [now apply logEntry_exact|].
  rewrite emitted_writes. unfold fanout. split.
  - apply writes_to_rendered. apply Hr.
  - now apply writes_to_rendered_blocked.
Qed.

End FanOutOrder.

(** * Attaching and detaching sinks *)

Lemma with_sinks_same (o : basic_logger) : with_sinks (sinks o) o = o.
Proof. now destruct o. Qed.

Lemma set_objs_same (w : World) : set_objs (objs w) w = w.
Proof. now destruct w. Qed.

Lemma erase_first_absent (s : sink_ptr) (ss : list sink_ptr) :
  s ∉ ss -> erase_first s ss = ss.
Proof.
  induction ss as [|x ss IH]; intros H; simpl; [reflexivity|].
  destruct (decide (x = s)) as [->|Hne].
  - exfalso. apply H. now left.
  - f_equal. apply IH. intros Hin. apply H. now right.
Qed.

Lemma erase_first_split (s : sink_ptr) (before after : list sink_ptr) :
  s ∉ before -> erase_first s (before ++ s :: after) = before ++ after.
Proof.
  induction before as [|x before IH]; intros H; simpl.
  - destruct (decide (s = s)); [reflexivity | congruence].
  - destruct (decide (x = s)) as [->|Hne].
    + exfalso. apply H. now left.
    + f_equal. apply IH. intros Hin. apply H. now right.
Qed.

(** X3. Detaching a sink that is not attached to the logger leaves the
    whole state as it is. *)
Theorem X3_removeSink_absent (w : World) (l : logger_ptr) (o : basic_logger)
    (s : sink_ptr) :
  objs w !! l = Some o -> s ∉ sinks o -> removeSink l s w = Some w.
Proof.
  intros Hl Hs. unfold removeSink. rewrite Hl, (erase_first_absent s _ Hs).
  rewrite with_sinks_same, list_insert_id by assumption. now rewrite set_objs_same.
Qed.

(** X4. Detaching a sink removes its first attachment only: the sinks
    before it and all the sinks after it, later attachments of the same
    sink included, stay attached in their order, and nothing else in
    the state changes. *)
Theorem X4_removeSink_first (w : World) (l : logger_ptr) (o : basic_logger)
    (s : sink_ptr) (before after : list sink_ptr) :
  objs w !! l = Some o -> sinks o = before ++ s :: after -> s ∉ before ->
  removeSink l s w =
    Some (set_objs (<[l := with_sinks (before ++ after) o]> (objs w)) w).
Proof.
  intros Hl Hs Hb. unfold removeSink. rewrite Hl, Hs.
  now rewrite (erase_first_split s before after Hb).
Qed.

(** X5. Attaching a sink that was not attached and detaching it again
    gives back the state. *)
Theorem X5_addSink_removeSink (w : World) (l : logger_ptr) (o : basic_logger)
    (s : sink_ptr) :
  objs w !! l = Some o -> s ∉ sinks o ->
  exists w1, addSink l s w = Some w1 /\ removeSink l s w1 = Some w.
Proof.
  intros Hl Hs. unfold addSink. rewrite Hl. eexists. split; [reflexivity|].
  pose proof (lookup_lt_Some _ _ _ Hl) as Hlt.
  unfold removeSink. simpl. rewrite list_lookup_insert_eq by assumption. simpl.
  rewrite (erase_first_split s (sinks o) [] Hs), app_nil_r.
  rewrite list_insert_insert_eq.
  replace (with_sinks (sinks o) (with_sinks (sinks o ++ [s]) o)) with o by now destruct o.
  rewrite list_insert_id by assumption. f_equal. now destruct w.
Qed.

(** * Effective levels under changes *)

Lemma getLevel_concrete (w : World) (l : logger_ptr) (o : basic_logger) :
  wf_World w -> objs w !! l = Some o -> level o <> INHERIT ->
  getLevel l w = Some (level o).
Proof.
  intros Hwf Hl Hc.
  destruct (getLevel_resolves w l o Hwf Hl) as (m & om & Hres & Hm & _ & Hg).
  inversion Hres; subst; [|congruence].
  assert (om = o) by congruence. now subst.
Qed.

Lemma getLevel_inherit (w : World) (l p : logger_ptr) (o : basic_logger) :
  wf_World w -> objs w !! l = Some o -> level o = INHERIT -> parent o = Some p ->
  getLevel l w = getLevel p w.
Proof.
  intros Hwf Hl Hi Hp.
  destruct (getLevel_resolves w l o Hwf Hl) as (m & om & Hres & Hm & _ & Hg).
  pose proof (wf_parent _ Hwf _ _ Hl) as Hlt. rewrite Hp in Hlt.
  assert (Hpv : is_Some (objs w !! p)).
  { apply lookup_lt_is_Some. apply lookup_lt_Some in Hl. lia. }
  destruct Hpv as (op & Hop).
  destruct (getLevel_resolves w p op Hwf Hop) as (m' & om' & Hres' & Hm' & _ & Hg').
  inversion Hres; subst; [congruence|].
  assert (p0 = p) by congruence. subst p0.
  assert (m' = m) by (eapply resolves_to_unique; eassumption). subst m'.
  congruence.
Qed.

(** The resolution from a logger looks at older instances only. *)
Lemma resolves_to_below (h : list basic_logger) (a m : logger_ptr) :
  (forall a o, h !! a = Some o ->
     match parent o with Some p => (p < a)%nat | None => level o <> INHERIT end) ->
  resolves_to h a m -> (m <= a)%nat.
Proof.
  intros Hwf. induction 1 as [|l o p m Hl Hi Hp _ IH]; [lia|].
  pose proof (Hwf _ _ Hl) as H. rewrite Hp in H. lia.
Qed.

Lemma resolves_to_transfer (h h' : list basic_logger) (a m : logger_ptr) :
  (forall a o, h !! a = Some o ->
     match parent o with Some p => (p < a)%nat | None => level o <> INHERIT end) ->
  (forall b, (b <= a)%nat -> h' !! b = h !! b) ->
  resolves_to h a m -> resolves_to h' a m.
Proof.
  intros Hwf Hsame Hres. induction Hres as [l o Hl Hc|l o p m Hl Hi Hp _ IH].
  - eapply resolves_here; [|exact Hc]. rewrite Hsame; [assumption | lia].
  - pose proof (Hwf _ _ Hl) as H. rewrite Hp in H.
    eapply resolves_up; [rewrite Hsame; [exact Hl | lia] | assumption | exact Hp |].
    apply IH. intros b Hb. apply Hsame. lia.
Qed.

(** Two well-formed states that agree on the instances up to [a] give
    [a] the same effective level. *)
Lemma getLevel_agree (w w' : World) (a : logger_ptr) (o : basic_logger) :
  wf_World w -> wf_World w' -> objs w !! a = Some o ->
  (forall b, (b <= a)%nat -> objs w' !! b = objs w !! b) ->
  getLevel a w' = getLevel a w.
Proof.
  intros Hwf Hwf' Ha Hsame.
  destruct (getLevel_resolves w a o Hwf Ha) as (m & om & Hres & Hm & _ & Hg).
  assert (Ha' : objs w' !! a = Some o) by (rewrite Hsame; [assumption | lia]).
  destruct (getLevel_resolves w' a o Hwf' Ha') as (m' & om' & Hres' & Hm' & _ & Hg').
  apply (resolves_to_transfer _ (objs w') _ _ (wf_parent _ Hwf) Hsame) in Hres.
  assert (m' = m) by (eapply resolves_to_unique; eassumption). subst m'.
  pose proof (resolves_to_below _ _ _ (wf_parent _ Hwf') Hres) as Hle.
  rewrite Hsame in Hm' by assumption. congruence.
Qed.

Lemma getLevel_setLevel (w w' : World) (l : logger_ptr) (lvl : LogLevel) :
  wf_World w -> setLevel l lvl w = Some w' -> lvl <> INHERIT ->
  getLevel l w' = Some lvl.
Proof.
  intros Hwf Hset Hc.
  pose proof (wf_setLevel _ _ _ _ Hwf Hset) as Hwf'.
  unfold setLevel in Hset. destruct (objs w !! l) as [o|] eqn:Hl; [|discriminate].
  rewrite bool_decide_eq_false_2 in Hset by assumption. simpl in Hset.
  injection Hset as <-.
  apply (getLevel_concrete _ l (with_level lvl o) Hwf'); [|assumption].
  simpl. apply list_lookup_insert_eq. eapply lookup_lt_Some, Hl.
Qed.

Section LevelChanges.

Context {P : Platform}.

(** X6. After [setLevel] with a concrete level the logger reports that
    level as its effective level, and so does every logger that
    inherits directly from it. *)
Theorem X6_setLevel_concrete (w w' : World) (l : logger_ptr) (lvl : LogLevel) :
  reachable w -> setLevel l lvl w = Some w' -> lvl <> INHERIT ->
  getLevel l w' = Some lvl /\
  forall c oc, objs w' !! c = Some oc -> level oc = INHERIT -> parent oc = Some l ->
               getLevel c w' = Some lvl.
Proof.
  intros Hwf%reachable_wf Hset Hc.
  pose proof (wf_setLevel _ _ _ _ Hwf Hset) as Hwf'.
  pose proof (getLevel_setLevel w w' l lvl Hwf Hset Hc) as Hg.
  split; [exact Hg|].
  intros c oc Hoc Hi Hp. rewrite <- Hg. eapply getLevel_inherit; eassumption.
Qed.


(** X26. After [setAdditive(false)] on a logger, [getAdditive] yields
    [false] and, provided the sinks of the logger itself can render the
    entry when their level admits it, an entry handed to the fan-out of
    that logger is written by the sinks of the logger only: whatever is
    attached to its ancestors, and whether or not those sinks could
    render the entry, plays no part. *)
Theorem X26_setAdditive_false_cuts (w w' : World) (l : logger_ptr) (o : basic_logger)
    (e : basic_log_entry) :
  reachable w -> objs w !! l = Some o -> setAdditive l false w = Some w' ->
  renders_all w' e (sinks o) ->
  getAdditive l w' = Some false /\
  exists w'', logEntry l e w' = Some w'' /\
              emitted w' w'' = flat_map (rendered w' e) (sinks o).
Proof.
  intros Hwf%reachable_wf Hl Hset Hr.
  pose proof (wf_setAdditive _ _ _ _ Hwf Hset) as Hwf'.
  pose proof (lookup_lt_Some _ _ _ Hl) as Hlt.
  unfold setAdditive in Hset. rewrite Hl in Hset. injection Hset as <-.
  assert (Hl' : objs (set_objs (<[l := with_additive false o]> (objs w)) w) !! l
                = Some (with_additive false o)).
  { simpl. now apply list_lookup_insert_eq. }
  assert (Hc : chain_sinks (set_objs (<[l := with_additive false o]> (objs w)) w) l
               = sinks o).
  { rewrite (chain_sinks_unfold _ l _ Hwf' Hl'). simpl. now rewrite app_nil_r. }
  split; [unfold getAdditive; now rewrite Hl'|].
  eexists. split.
  - apply logEntry_exact; [assumption | now rewrite Hc |].
    simpl. now rewrite length_insert.
  - rewrite emitted_writes. unfold fanout. now rewrite Hc.
Qed.

End LevelChanges.

(** * More on the registry *)

(** The result of [getLogger_fuel] does not depend on the bound, once
    the bound exceeds the length of the name. *)
Lemma getLogger_fuel_stable (f1 : nat) :
  forall (f2 : nat) (nm : string) (w : World),
    (String.length nm < f1)%nat -> (String.length nm < f2)%nat ->
    getLogger_fuel f1 nm w = getLogger_fuel f2 nm w.
Proof.
  induction f1 as [|f1 IH]; intros f2 nm w H1 H2; [lia|].
  destruct f2 as [|f2]; [lia|]. simpl.
  destruct (String.length nm =? 0)%nat eqn:Hz; [reflexivity|].
  destruct (loggers w !! nm); [reflexivity|].
  destruct (rfind nm "."%char) as [n|] eqn:En; [|reflexivity].
  apply rfind_Some_shorter in En. rewrite (IH f2); [reflexivity | lia | lia].
Qed.

(** [getLogger] in terms of itself. *)
Lemma getLogger_unfold (nm : string) (w : World) :
  nm <> "" -> loggers w !! nm = None ->
  getLogger nm w =
    match getLogger (parent_name nm) w with
    | Some (p, w1) => Some (register nm p w1)
    | None => None
    end.
Proof.
  intros Hne Hnone. unfold getLogger at 1. simpl.
  destruct (String.length nm =? 0)%nat eqn:Hz; [now apply length_zero_empty in Hz|].
  rewrite Hnone. unfold parent_name.
  destruct (rfind nm "."%char) as [n|] eqn:En; [|reflexivity].
  unfold getLogger. apply rfind_Some_shorter in En.
  rewrite (getLogger_fuel_stable _ (S (String.length (substr0 nm n)))); [reflexivity|lia|lia].
Qed.

Lemma chain_sinks_agree (w : World) (l p : logger_ptr) (o : basic_logger) :
  wf_World w -> objs w !! l = Some o -> sinks o = [] -> additive o = true ->
  parent o = Some p -> chain_sinks w l = chain_sinks w p.
Proof.
  intros Hwf Hl Hs Ha Hp. rewrite (chain_sinks_unfold w l o Hwf Hl).
  now rewrite Hs, Ha, Hp.
Qed.

Section RegistryExtras.

Context {P : Platform}.

(** X8. A request for a name that is not registered returns a new
    instance (its handle designated nothing before) with that name,
    stored level [INHERIT], no sinks and the additive flag set, whose
    parent is the logger of the parent name. Its effective level is the
    one of its parent, and the fan-out started at it meets the sinks
    that the fan-out at its parent meets. *)
Theorem X8_getLogger_fresh (nm : string) (w : World) :
  reachable w -> nm <> "" -> loggers w !! nm = None ->
  exists a p w',
    getLogger nm w = Some (a, w') /\
    objs w !! a = None /\
    objs w' !! a = Some (new_logger nm p) /\
    logger_of w' (parent_name nm) p /\
    getLevel a w' = getLevel p w' /\
    chain_sinks w' a = chain_sinks w' p.
Proof.
  intros Hwf%reachable_wf Hne Hnone.
  destruct (getLogger_spec nm w Hwf) as (a & w' & E & Hwf' & Hlog & _).
  rewrite (getLogger_unfold nm w Hne Hnone) in E.
  destruct (getLogger_spec (parent_name nm) w Hwf) as (p & w1 & E1 & Hwf1 & Hp & Hg1).
  rewrite E1 in E. injection E as <- <-.
  exists (length (objs w1)), p, (register nm p w1).2.
  rewrite (getLogger_unfold nm w Hne Hnone), E1.
  assert (Ha : objs (register nm p w1).2 !! length (objs w1) = Some (new_logger nm p)).
  { simpl. apply lookup_snoc_new. }
  split; [reflexivity|]. split; [|split; [exact Ha|split; [|split]]].
  - destruct (g_objs _ _ _ Hg1) as (new & Ho & _).
    apply lookup_ge_None_2. rewrite Ho, length_app. lia.
  - unfold logger_of in *. simpl. destruct (decide (parent_name nm = "")); [assumption|].
    unfold emplace. assert (Hn1 : loggers w1 !! nm = None).
    { destruct (g_loggers _ _ _ Hg1 nm) as [E|[_ Hon]]; [congruence|].
      apply on_name_path_length in Hon.
      pose proof (parent_name_shorter nm Hne). lia. }
    rewrite Hn1. rewrite lookup_insert_ne; [assumption|].
    intros Heq. pose proof (parent_name_shorter nm Hne) as Hsh. rewrite <- Heq in Hsh. lia.
  - eapply getLevel_inherit; [exact Hwf' | exact Ha | reflexivity | reflexivity].
  - eapply chain_sinks_agree; [exact Hwf' | exact Ha | reflexivity | reflexivity | reflexivity].
Qed.

(** X9. A call of [getLogger] writes nothing and leaves the sinks, the
    registered loggers, the root and every existing instance as they
    were; the effective level of every existing logger is unchanged. *)
Theorem X9_getLogger_frame (nm : string) (w w' : World) (a : logger_ptr) :
  reachable w -> getLogger nm w = Some (a, w') ->
  output w' = output w /\ sink_objs w' = sink_objs w /\
  (forall k b, loggers w !! k = Some b -> loggers w' !! k = Some b) /\
  (forall r, root_logger w = Some r -> root_logger w' = Some r) /\
  (forall b ob, objs w !! b = Some ob ->
     objs w' !! b = Some ob /\ getLevel b w' = getLevel b w).
Proof.
  intros Hwf%reachable_wf E.
  destruct (getLogger_spec nm w Hwf) as (a' & w'' & E' & Hwf' & _ & Hg).
  rewrite E in E'. injection E' as <- <-.
  destruct Hg as [(new & Ho & _) Hl Hr Hs Hout].
  split; [assumption|]. split; [assumption|]. split; [|split; [assumption|]].
  - intros k b Hk. destruct (Hl k) as [Ek|[Ek _]]; congruence.
  - intros b ob Hb.
    assert (Hsame : forall c, (c <= b)%nat -> objs w' !! c = objs w !! c).
    { intros c Hc. rewrite Ho. apply lookup_app_l.
      apply lookup_lt_Some in Hb. lia. }
    split; [rewrite Hsame; [assumption | lia]|].
    eapply getLevel_agree; eassumption.
Qed.

Lemma keeps_refl (w : World) : keeps w w.
Proof.
  repeat split; eauto. exists []. now rewrite app_nil_r.
Qed.

Lemma keeps_trans (w1 w2 w3 : World) : keeps w1 w2 -> keeps w2 w3 -> keeps w1 w3.
Proof.
  intros (A1 & B1 & C1 & D1 & (n1 & E1)) (A2 & B2 & C2 & D2 & (n2 & E2)).
  split; [|split; [|split; [|split]]]; eauto.
  - intros a o Ho. destruct (A1 a o Ho) as (o' & Ho' & Hn & Hp).
    destruct (A2 a o' Ho') as (o'' & Ho'' & Hn' & Hp').
    exists o''. split; [assumption|]. split; congruence.
  - exists (n1 ++ n2). rewrite E2, E1. now rewrite app_assoc.
Qed.

Lemma keeps_appends (w w' : World) : appends w w' -> keeps w w'.
Proof.
  intros [(Ho & Hr & Hl & Hs) Hout]. unfold keeps. rewrite Ho, Hr, Hl, Hs.
  repeat split; eauto.
Qed.

Lemma keeps_update (w : World) (l : logger_ptr) (o o' : basic_logger) :
  objs w !! l = Some o -> name o' = name o -> parent o' = parent o ->
  keeps w (set_objs (<[l := o']> (objs w)) w).
Proof.
  intros Hl Hn Hp. split; [|split; [|split; [|split]]]; simpl; auto.
  - intros a x Hx. destruct (decide (a = l)) as [->|Hne].
    + exists o'. rewrite list_lookup_insert_eq by (eapply lookup_lt_Some, Hl).
      assert (x = o) by congruence. subst x. auto.
    + exists x. rewrite list_lookup_insert_ne by congruence. auto.
  - exists []. now rewrite app_nil_r.
Qed.

Lemma keeps_sinks (w : World) (h : list basic_stream_sink) :
  (length (sink_objs w) <= length h)%nat -> keeps w (set_sink_objs h w).
Proof.
  intros Hlen. split; [|split; [|split; [|split]]]; simpl; eauto.
  - intros s Hs. lia.
  - exists []. now rewrite app_nil_r.
Qed.

Lemma keeps_grows (nm : string) (w w' : World) : grows nm w w' -> keeps w w'.
Proof.
  intros [(new & Ho & _) Hl Hr Hs Hout]. split; [|split; [|split; [|split]]].
  - intros a o Ha. exists o. split; [|auto]. rewrite Ho. apply lookup_app_l_Some, Ha.
  - intros k b Hk. destruct (Hl k) as [Ek|[Ek _]]; congruence.
  - assumption.
  - intros s. now rewrite Hs.
  - exists []. now rewrite app_nil_r.
Qed.

Lemma step_keeps (w w' : World) : wf_World w -> step w w' -> keeps w w'.
Proof.
  intros Hwf Hstep. destruct Hstep.
  - apply (keeps_grows ""), (getRootLogger_spec "" w Hwf).
  - destruct (getLogger_spec nm w Hwf) as (a & w1 & E & _ & _ & Hg).
    rewrite H in E. injection E as <- <-. eapply keeps_grows, Hg.
  - unfold setLevel in H. destruct (objs w !! l) as [o|] eqn:Hl; [|discriminate].
    destruct (_ && _); injection H as <-; [apply keeps_refl|].
    now apply (keeps_update w l o).
  - unfold setAdditive in H. destruct (objs w !! l) as [o|] eqn:Hl; [|discriminate].
    injection H as <-. now apply (keeps_update w l o).
  - unfold addSink in H0. destruct (objs w !! l) as [o|] eqn:Hl; [|discriminate].
    injection H0 as <-. now apply (keeps_update w l o).
  - unfold removeSink in H. destruct (objs w !! l) as [o|] eqn:Hl; [|discriminate].
    injection H as <-. now apply (keeps_update w l o).
  - apply keeps_sinks. rewrite length_app. lia.
  - unfold setFormatter in H. destruct (sink_objs w !! s); [|discriminate].
    injection H as <-. apply keeps_sinks. now rewrite length_insert.
  - unfold sink_setLevel in H. destruct (sink_objs w !! s); [|discriminate].
    injection H as <-. apply keeps_sinks. now rewrite length_insert.
  - eapply keeps_appends, log_appends, H.
  - eapply keeps_appends, destroy_appends, H.
  - unfold L3PP_LOG in H.
    destruct (getLogger_spec channel w Hwf) as (a & w1 & E & _ & _ & Hg).
    rewrite E in H. apply keeps_grows in Hg.
    destruct (getLevel a w1); [|discriminate].
    destruct (level_le _ _); [|now injection H as <-].
    eapply keeps_trans; [exact Hg|]. eapply keeps_appends, destroy_appends, H.
Qed.

(** X10. Nothing is ever taken away: along any sequence of calls from a
    reachable state, every logger handle keeps designating an instance
    with the same name and the same parent, the entries of the registry
    and the root stay the same, sink handles stay valid, and the output
    only grows at its end. *)
Theorem X10_nothing_removed (w w' : World) :
  reachable w -> rtc step w w' -> keeps w w'.
Proof.
  intros Hr Hsteps. induction Hsteps as [w|w w1 w2 Hstep _ IH]; [apply keeps_refl|].
  eapply keeps_trans; [apply step_keeps; [now apply reachable_wf | exact Hstep]|].
  apply IH. eapply reachable_step; eassumption.
Qed.

End RegistryExtras.

(** * More on emission and sinks *)

Section EmissionExtras.

Context {P : Platform}.

Lemma default_format_text (h : list basic_logger) (e : basic_log_entry) :
  format basic_formatter h e =
    Some (level_text (entry_level e) +:+ " - " +:+ entry_msg e +:+ String LF "").
Proof.
  unfold format, insert_value.
  destruct (stream_level_no_width new_stringstream (entry_level e) eq_refl) as [B1 W1].
  destruct (put_no_width _ " - " W1) as [B2 W2].
  destruct (put_no_width _ (entry_msg e) W2) as [B3 W3].
  destruct (put_no_width _ (text_of (SChar LF)) W3) as [B4 _].
  rewrite B4, B3, B2, B1. simpl os_buf. simpl text_of.
  now rewrite !string_app_assoc.
Qed.

(** X11. The logging macro does what a lookup of the channel followed
    by the message-based [log] with the concatenation of the streamed
    texts does: same result, same state, same undefined cases. *)
Theorem X11_macro_is_lookup_then_log (now : Z) (lvl : LogLevel) (channel : string)
    (expr : list streamable) (context : log_context) (w : World) :
  L3PP_LOG now lvl channel expr context w =
    match getLogger channel w with
    | Some (l, w1) => log now l lvl (concat_text expr) context w1
    | None => None
    end.
Proof.
  unfold L3PP_LOG, log. destruct (getLogger channel w) as [[l w1]|]; [|reflexivity].
  destruct (getLevel l w1) as [effective|]; [|reflexivity].
  rewrite level_le_ge, level_lt_ge. destruct (level_ge lvl effective); simpl; [|reflexivity].
  destruct (insert_values_buf expr (log_stream now l lvl context) eq_refl) as [He Hb].
  rewrite destroy_unfold, He, Hb. reflexivity.
Qed.

(** X12. After [setLevel(OFF)] on a logger, none of the six
    message-based methods named after the levels has any effect when
    called on that logger. *)
Theorem X12_off_silences_methods (w w' : World) (l : logger_ptr) (now : Z)
    (msg : string) (context : log_context) :
  reachable w -> setLevel l OFF w = Some w' ->
  trace now l msg context w' = Some w' /\ debug now l msg context w' = Some w' /\
  info now l msg context w' = Some w' /\ warn now l msg context w' = Some w' /\
  error now l msg context w' = Some w' /\ fatal now l msg context w' = Some w'.
Proof.
  intros Hwf%reachable_wf Hset.
  assert (Hg : getLevel l w' = Some OFF).
  { apply (getLevel_setLevel w w' l OFF Hwf Hset). discriminate. }
  unfold trace, debug, info, warn, error, fatal, log. rewrite Hg.
  repeat split; reflexivity.
Qed.

Lemma getRootLogger_sink_objs (w : World) :
  sink_objs (getRootLogger w).2 = sink_objs w.
Proof. unfold getRootLogger. now destruct (root_logger w). Qed.

Lemma getLogger_fuel_sink_objs (n : nat) :
  forall (nm : string) (w : World) (r : logger_ptr * World),
    getLogger_fuel n nm w = Some r -> sink_objs r.2 = sink_objs w.
Proof.
  induction n as [|n IH]; intros nm w r H; [discriminate|].
  simpl in H. destruct (String.length nm =? 0)%nat.
  { injection H as <-. apply getRootLogger_sink_objs. }
  destruct (loggers w !! nm); [now injection H as <-|].
  destruct (rfind nm "."%char) as [k|].
  - destruct (getLogger_fuel n (substr0 nm k) w) as [[p w1]|] eqn:E; [|discriminate].
    injection H as <-. simpl. apply (IH _ _ _ E).
  - pose proof (getRootLogger_sink_objs w) as Hr.
    destruct (getRootLogger w) as [p w1]. injection H as <-. exact Hr.
Qed.

Lemma public_step_sink_levels (w w' : World) :
  public_step w w' ->
  (forall s o, sink_objs w !! s = Some o -> sink_level o = ALL) ->
  forall s o, sink_objs w' !! s = Some o -> sink_level o = ALL.
Proof.
  intros Hstep Hall.
  assert (Hsame : sink_objs w' = sink_objs w ->
            forall s o, sink_objs w' !! s = Some o -> sink_level o = ALL).
  { intros E s o. rewrite E. apply Hall. }
  destruct Hstep.
  - apply Hsame. apply getRootLogger_sink_objs.
  - apply Hsame. apply (getLogger_fuel_sink_objs _ _ _ _ H).
  - apply Hsame. unfold setLevel in H. destruct (objs w !! l); [|discriminate].
    destruct (_ && _); now injection H as <-.
  - apply Hsame. unfold setAdditive in H. destruct (objs w !! l); [|discriminate].
    now injection H as <-.
  - apply Hsame. unfold addSink in H0. destruct (objs w !! l); [|discriminate].
    now injection H0 as <-.
  - apply Hsame. unfold removeSink in H. destruct (objs w !! l); [|discriminate].
    now injection H as <-.
  - intros s o Ho. simpl in Ho. apply lookup_snoc in Ho as [[Ho _]|[_ ->]].
    + eapply Hall, Ho.
    + reflexivity.
  - unfold setFormatter in H. destruct (sink_objs w !! s) as [os|] eqn:Hs; [|discriminate].
    injection H as <-. intros t o Ho. simpl in Ho.
    destruct (decide (t = s)) as [->|Hne].
    + rewrite list_lookup_insert_eq in Ho by (eapply lookup_lt_Some, Hs).
      injection Ho as <-. simpl. eapply Hall, Hs.
    + rewrite list_lookup_insert_ne in Ho by congruence. eapply Hall, Ho.
  - apply Hsame. now apply log_appends in H as [(_ & _ & _ & H) _].
  - apply Hsame. now apply destroy_appends in H as [(_ & _ & _ & H) _].
  - eapply Hsame. unfold L3PP_LOG in H.
    destruct (getLogger channel w) as [[l w1]|] eqn:E; [|discriminate].
    assert (Hs1 : sink_objs w1 = sink_objs w) by apply (getLogger_fuel_sink_objs _ _ _ _ E).
    destruct (getLevel l w1); [|discriminate].
    destruct (level_le _ _); [|injection H as <-; exact Hs1].
    apply destroy_appends in H as [(_ & _ & _ & H) _]. congruence.
Qed.

(** X13. In every state reached through the public members, every sink
    has the level [ALL], so no sink ever rejects an entry for its
    level: [create] sets [ALL] and the setter is private. *)
Theorem X13_public_sinks_admit_all (w : World) :
  public_reachable w ->
  forall s o, sink_objs w !! s = Some o ->
    sink_level o = ALL /\ forall lvl, level_ge lvl (sink_level o) = true.
Proof.
  intros Hr.
  assert (Hall : forall s o, sink_objs w !! s = Some o -> sink_level o = ALL).
  { induction Hr as [|w w' _ IH Hstep].
    - intros s o H. simpl in H. now rewrite lookup_nil in H.
    - eapply public_step_sink_levels; eassumption. }
  intros s o Ho. split; [eapply Hall, Ho|].
  intros lvl. rewrite (Hall s o Ho). now destruct lvl.
Qed.

(** X14. [setFormatter] on a valid sink returns; afterwards
    [getFormatter] yields the formatter that was set, the other sinks
    have the formatters they had, and the sink logs an entry that its
    level admits with the text of the new formatter. *)
Theorem X14_setFormatter_getFormatter (w : World) (s : sink_ptr) (o : basic_stream_sink)
    (f : formatter) :
  sink_objs w !! s = Some o ->
  exists w', setFormatter s f w = Some w' /\
    getFormatter s w' = Some f /\
    (forall t, t <> s -> getFormatter t w' = getFormatter t w) /\
    (forall e text, level_ge (entry_level e) (sink_level o) = true ->
       format f (objs w) e = Some text -> sink_log s e w' = Some (write s text w')).
Proof.
  intros Hs. pose proof (lookup_lt_Some _ _ _ Hs) as Hlt.
  unfold setFormatter. rewrite Hs. eexists. split; [reflexivity|].
  unfold getFormatter. simpl. split; [|split].
  - now rewrite list_lookup_insert_eq.
  - intros t Hne. now rewrite list_lookup_insert_ne.
  - intros e text Hge Hf. unfold sink_log. simpl.
    rewrite list_lookup_insert_eq by assumption. simpl.
    rewrite Hge. unfold formatMessage. simpl. now rewrite Hf.
Qed.

(** X15. A sink fresh from [create] has a handle that designated no
    sink before, and it logs every entry, whatever its level, as the
    text of the level, [" - "], the message and a line feed. *)
Theorem X15_create_logs_everything (w : World) (e : basic_log_entry) :
  sink_objs w !! (create w).1 = None /\
  sink_log (create w).1 e (create w).2 =
    Some (write (create w).1
            (level_text (entry_level e) +:+ " - " +:+ entry_msg e +:+ String LF "")
            (create w).2).
Proof.
  split; [apply lookup_ge_None_2; simpl; lia|].
  unfold sink_log, create. cbn [fst snd set_sink_objs sink_objs objs].
  rewrite lookup_snoc_new. unfold formatMessage.
  cbn [sink_level sink_formatter new_stream_sink]. rewrite default_format_text.
  now destruct (entry_level e).
Qed.

End EmissionExtras.

(** * More on formatters *)

Section FormatExtras.

Context {P : Platform}.

Lemma stream_level_put (lvl : LogLevel) (os : ostream) :
  stream_level lvl os = put (level_text lvl) os.
Proof. now destruct lvl. Qed.

(** What a field does to a stream in any state. *)
Lemma basic_field_stream_text (field : Field.t) (Width : Z) (j : Justification)
    (Fill : ascii) (os : ostream) (h : list basic_logger) (context : basic_log_entry) :
  basic_field_stream field Width j Fill os h context =
    match field_text field h context with
    | Some t =>
        Some {| os_buf := os_buf os +:+ left_padded Width Fill t; os_width := 0;
                os_fill := Fill; os_adjust := adj_right |}
    | None => None
    end.
Proof.
  destruct field; destruct j; unfold basic_field_stream, field_text, strrchr;
    try reflexivity;
    try (destruct (rfind _ _); reflexivity);
    try (destruct (h !! entry_logger context); reflexivity);
    try (rewrite stream_level_put; reflexivity).
Qed.

Lemma formatElement_text (e : element) (os : ostream) (h : list basic_logger)
    (context : basic_log_entry) :
  os_width os = 0 ->
  match element_text e h context with
  | Some t => exists os', formatElement e os h context = Some os' /\
                          os_buf os' = os_buf os +:+ t /\ os_width os' = 0
  | None => formatElement e os h context = None
  end.
Proof.
  intros Hw. destruct e as [field Width j Fill|formatStr|t]; simpl.
  - rewrite basic_field_stream_text.
    destruct (field_text field h context); simpl; [|reflexivity].
    eexists. split; [reflexivity|]. split; reflexivity.
  - eexists. split; [reflexivity|]. split; [reflexivity | assumption].
  - eexists. split; [reflexivity|]. simpl. rewrite padded_no_width by lia. auto.
Qed.

Lemma formatTuple_text (formatters : list element) (h : list basic_logger)
    (context : basic_log_entry) :
  forall os, os_width os = 0 ->
    match template_text formatters h context with
    | Some t => exists os', formatTuple formatters h context os = Some os' /\
                            os_buf os' = os_buf os +:+ t
    | None => formatTuple formatters h context os = None
    end.
Proof.
  induction formatters as [|e rest IH]; intros os Hw; simpl.
  - exists os. split; [reflexivity | now rewrite string_app_nil_r].
  - pose proof (formatElement_text e os h context Hw) as He.
    destruct (element_text e h context) as [t|].
    + destruct He as (os1 & -> & Hb1 & Hw1). specialize (IH os1 Hw1).
      destruct (template_text rest h context) as [ts|].
      * destruct IH as (os2 & -> & Hb2). exists os2. split; [reflexivity|].
        rewrite Hb2, Hb1. apply string_app_assoc.
      * exact IH.
    + now rewrite He.
Qed.

Lemma format_template_text (formatters : list element) (h : list basic_logger)
    (context : basic_log_entry) :
  format (basic_template_formatter formatters) h context =
    template_text formatters h context.
Proof.
  unfold format.
  pose proof (formatTuple_text formatters h context new_stringstream eq_refl) as H.
  destruct (template_text formatters h context) as [t|].
  - destruct H as (os' & -> & ->). reflexivity.
  - now rewrite H.
Qed.


Lemma replicate_char_length (n : nat) (c : ascii) :
  String.length (replicate_char n c) = n.
Proof. induction n as [|n IH]; simpl; [reflexivity | now rewrite IH]. Qed.

Lemma left_padded_zero (Fill : ascii) (t : string) : left_padded 0 Fill t = t.
Proof.
  unfold left_padded.
  now replace (Z.to_nat (0 - Z.of_nat (String.length t))) with 0%nat by lia.
Qed.

(** X16. A field is undefined in two cases only: the file-name field
    on a file name without separator, and the logger-name field on a
    logger pointer that designates no instance. In every other case,
    whatever the state of the stream and whatever the justification,
    it appends its whole text, preceded by as many fill characters as
    the text is short of the width; so it adds the larger of the width
    and the length of the text, and it leaves the width at zero with
    its fill character and right adjustment set. *)
Theorem X16_field_never_truncates (field : Field.t) (Width : Z) (j : Justification)
    (Fill : ascii) (os : ostream) (h : list basic_logger)
    (context : basic_log_entry) :
  (basic_field_stream field Width j Fill os h context = None <->
   (field = Field.FileName /\
    ~ has_separator path_separator (filename (entry_context context))) \/
   (field = Field.LoggerName /\ h !! entry_logger context = None)) /\
  (forall os', basic_field_stream field Width j Fill os h context = Some os' ->
     exists t, field_text field h context = Some t /\
       os_buf os' =
         os_buf os +:+
         (replicate_char (Z.to_nat (Width - Z.of_nat (String.length t))) Fill +:+ t) /\
       Z.of_nat (String.length (os_buf os')) =
         Z.of_nat (String.length (os_buf os)) + Z.max Width (Z.of_nat (String.length t)) /\
       os_width os' = 0 /\ os_fill os' = Fill /\ os_adjust os' = adj_right).
Proof.
  rewrite basic_field_stream_text. split.
  - destruct field; simpl field_text;
      try (split; [discriminate | intros [[H _]|[H _]]; discriminate]).
    + rewrite <- rfind_None_iff.
      destruct (rfind (filename (entry_context context)) path_separator); split.
      * discriminate.
      * intros [[_ H]|[H _]]; discriminate.
      * intros _. left. auto.
      * reflexivity.
    + destruct (h !! entry_logger context); simpl; split.
      * discriminate.
      * intros [[H _]|[_ H]]; discriminate.
      * intros _. right. auto.
      * reflexivity.
  - destruct (field_text field h context) as [t|]; [|discriminate].
    intros os' [= <-]. exists t. split; [reflexivity|]. split; [reflexivity|].
    split; [|auto]. simpl. unfold left_padded.
    rewrite !string_length_app, replicate_char_length. lia.
Qed.

(** X17. The rendering of a template formatter is the concatenation,
    in the order of the elements, of the texts of the elements, each
    taken on its own: the padded text of a field, the text of the time
    pattern, the text of a literal. It is undefined exactly when one of
    the elements is; nothing is added after the last element. *)
Theorem X17_template_is_concatenation (formatters : list element)
    (h : list basic_logger) (context : basic_log_entry) :
  format (basic_template_formatter formatters) h context =
    template_text formatters h context /\
  format (basic_template_formatter []) h context = Some "".
Proof. split; [apply format_template_text | reflexivity]. Qed.


(** X19. The template formatter of the documentation of
    [makeTemplateFormatter] (level field, [" - "], message field,
    ["\n"]) renders every entry exactly as the default formatter. *)
Theorem X19_documented_template_is_default (h : list basic_logger)
    (context : basic_log_entry) :
  format documented_template h context = format basic_formatter h context.
Proof.
  unfold documented_template. rewrite format_template_text, default_format_text.
  unfold basic_field_default. cbn [template_text element_text field_text fmap option_fmap option_map text_of].
  rewrite !left_padded_zero. now rewrite string_app_nil_r.
Qed.

End FormatExtras.

(** * The earlier variant: base names, filters, channel width *)

Lemma rfind_None_c_str (s : string) (c : ascii) (n : nat) :
  rfind s c = Some n ->
  exists d, s = d +:+ String c (c_str_from (n + 1) s) /\
            String.length d = n /\ rfind (c_str_from (n + 1) s) c = None.
Proof.
  intros H. destruct (rfind_Some_split _ _ _ H) as (rest & Hs & Hl & Hr).
  remember (substr0 s n) as q eqn:Hq. clear Hq. subst s n.
  exists q. rewrite c_str_from_app_cons. auto.
Qed.

(** X20. [utility::basename] never throws on a string whose size fits
    [size_t]: without a slash the result is the whole string (the
    position [npos + 1] wraps to zero); with a slash the string is some
    directory part, a slash and the result. The result contains no
    slash. *)
Theorem X20_basename (s : string) :
  (N.of_nat (String.length s) < Legacy.size_modulus)%N ->
  exists b, Legacy.basename s = Some b /\
    rfind b "/"%char = None /\
    (rfind s "/"%char = None -> b = s) /\
    (rfind s "/"%char <> None -> exists d, s = d +:+ String "/"%char b).
Proof.
  intros Hlen. unfold Legacy.basename, Legacy.rfind_pos, Legacy.size_add, Legacy.substr_from.
  destruct (rfind s "/"%char) as [n|] eqn:E.
  - destruct (rfind_None_c_str _ _ _ E) as (d & Hs & Hd & Hr).
    assert (Hn : (n < String.length s)%nat).
    { rewrite Hs, string_length_app. simpl. lia. }
    rewrite N.mod_small by lia.
    destruct (N.ltb_spec (N.of_nat (String.length s)) (N.of_nat n + 1)); [lia|].
    replace (N.to_nat (N.of_nat n + 1)) with (n + 1)%nat by lia.
    eexists. split; [reflexivity|]. split; [assumption|].
    split; [discriminate|]. intros _. now exists d.
  - replace ((Legacy.npos + 1) mod Legacy.size_modulus)%N with 0%N by reflexivity.
    destruct (N.ltb_spec (N.of_nat (String.length s)) 0); [lia|].
    exists s. simpl. split; [reflexivity|]. split; [assumption|].
    split; [reflexivity | congruence].
Qed.

Section BaseNameField.

Context {P : Platform}.

(** X21. In a build without [_WIN32], on an entry whose file name
    contains a slash the file-name field streams what
    [utility::basename] of the earlier variant returns for that file
    name; on the other file names [basename] returns the whole name
    whereas the field is undefined. *)
Theorem X21_filename_field_vs_basename (Width : Z) (j : Justification) (Fill : ascii)
    (os : ostream) (h : list basic_logger) (e : basic_log_entry) :
  win32 = false ->
  (N.of_nat (String.length (filename (entry_context e))) < Legacy.size_modulus)%N ->
  exists b, Legacy.basename (filename (entry_context e)) = Some b /\
    (rfind (filename (entry_context e)) "/"%char <> None ->
       basic_field_stream Field.FileName Width j Fill os h e =
         Some (put b (std_right (setfill Fill (setw Width os))))) /\
    (rfind (filename (entry_context e)) "/"%char = None ->
       b = filename (entry_context e) /\
       basic_field_stream Field.FileName Width j Fill os h e = None).
Proof.
  intros Hw Hlen.
  unfold basic_field_stream, strrchr, path_separator. rewrite Hw.
  unfold Legacy.basename, Legacy.rfind_pos, Legacy.size_add, Legacy.substr_from.
  destruct (rfind (filename (entry_context e)) "/"%char) as [n|] eqn:E.
  - destruct (rfind_None_c_str _ _ _ E) as (d & Hs & Hd & Hr).
    assert (Hn : (n < String.length (filename (entry_context e)))%nat).
    { rewrite Hs, string_length_app. simpl. lia. }
    rewrite N.mod_small by lia.
    destruct (N.ltb_spec (N.of_nat (String.length (filename (entry_context e))))
                (N.of_nat n + 1)); [lia|].
    replace (N.to_nat (N.of_nat n + 1)) with (n + 1)%nat by lia.
    eexists. split; [reflexivity|]. split; [|discriminate].
    intros _. now destruct j.
  - replace ((Legacy.npos + 1) mod Legacy.size_modulus)%N with 0%N by reflexivity.
    destruct (N.ltb_spec (N.of_nat (String.length (filename (entry_context e)))) 0); [lia|].
    eexists. split; [reflexivity|]. split; [congruence|]. intros _. split; reflexivity.
Qed.

End BaseNameField.

(** ** Filters *)

Lemma check_find_step (fuel : nat) (c : string) (f : Legacy.Filter) :
  Legacy.data f !! c = None -> c <> "" ->
  Legacy.check_find (S fuel) c f = Legacy.check_find fuel (parent_name c) f.
Proof.
  intros Hn Hne. simpl. rewrite Hn.
  destruct c as [|a c]; [congruence|]. reflexivity.
Qed.

Lemma check_find_here (fuel : nat) (c : string) (f : Legacy.Filter) (l : Legacy.LogLevel) :
  Legacy.data f !! c = Some l -> Legacy.check_find fuel c f = Some l.
Proof. intros H. destruct fuel; simpl; now rewrite H. Qed.

Lemma check_find_fallback (f : Legacy.Filter) :
  is_Some (Legacy.data f !! "") ->
  forall (fuel : nat) (c : string),
    (String.length c <= fuel)%nat -> is_Some (Legacy.check_find fuel c f).
Proof.
  intros Hfb. induction fuel as [|fuel IH]; intros c Hlen.
  - destruct c; [|simpl in Hlen; lia]. destruct Hfb as (l & Hl).
    rewrite (check_find_here _ _ _ _ Hl). eauto.
  - destruct (Legacy.data f !! c) as [l|] eqn:Hc.
    + rewrite (check_find_here _ _ _ _ Hc). eauto.
    + destruct (decide (c = "")) as [->|Hne].
      { destruct Hfb as (l & Hl). congruence. }
      rewrite check_find_step by assumption. apply IH.
      pose proof (parent_name_shorter c Hne). lia.
Qed.

(** X22. A filter made by the constructor and by any further rules has
    a rule for the empty channel, and with such a rule [check] answers
    for every channel and level: its assertion never fails. *)
Theorem X22_filter_check_answers (f : Legacy.Filter) (channel : string)
    (level : Legacy.LogLevel) :
  (forall l0, is_Some (Legacy.data (Legacy.new_Filter l0) !! "")) /\
  (forall c l, is_Some (Legacy.data f !! "") ->
               is_Some (Legacy.data (Legacy.rule c l f) !! "")) /\
  (is_Some (Legacy.data f !! "") -> is_Some (Legacy.check f channel level)).
Proof.
  split; [|split].
  - intros l0. simpl. rewrite lookup_insert_eq. eauto.
  - intros c l (l0 & Hl0). simpl. destruct (decide (c = "")) as [->|Hne].
    + rewrite lookup_insert_eq. eauto.
    + rewrite lookup_insert_ne by assumption. eauto.
  - intros Hfb. unfold Legacy.check.
    destruct (check_find_fallback f Hfb (String.length channel) channel (le_n _))
      as (l & ->). eauto.
Qed.

Lemma check_find_governs (f : Legacy.Filter) (k : string) (l : Legacy.LogLevel) :
  forall (fuel : nat) (c : string),
    (String.length c <= fuel)%nat -> Legacy.governs f c k l ->
    Legacy.check_find fuel c f = Some l.
Proof.
  induction fuel as [|fuel IH]; intros c Hlen (Hk & Hl & Hno).
  - destruct c; [|simpl in Hlen; lia].
    assert (k = "") as ->.
    { destruct Hk as [ -> | [H | -> ] ]; auto.
      apply dotted_prefix_shorter in H. simpl in H. lia. }
    now apply check_find_here.
  - destruct (decide (k = c)) as [->|Hkc]; [now apply check_find_here|].
    assert (Hshort : (String.length k < String.length c)%nat).
    { destruct Hk as [ -> | [H | -> ] ]; [congruence | now apply dotted_prefix_shorter |].
      destruct c; [congruence | simpl; lia]. }
    assert (Hne : c <> "") by (intros ->; simpl in Hshort; lia).
    rewrite check_find_step; [|apply Hno; [now left | assumption] | assumption].
    apply IH; [pose proof (parent_name_shorter c Hne); lia|].
    split; [|split; [assumption|]].
    + destruct Hk as [ -> | [H | -> ] ]; [congruence | | right; now right].
      destruct (dotted_prefix_parent _ _ H) as [ -> | H']; [now left | right; now left].
    + intros k' Hk' Hlt. apply Hno; [now apply on_name_path_parent | assumption].
Qed.

(** X23. [check] decides by the nearest rule: when [k] is the channel
    itself, one of its dotted prefixes or the empty channel, [k] has a
    rule, and no longer name among these has one, the message passes
    iff its level is at least the level of that rule; names in between
    that have no rule are skipped. *)
Theorem X23_filter_nearest_rule (f : Legacy.Filter) (channel k : string)
    (l level : Legacy.LogLevel) :
  Legacy.governs f channel k l ->
  Legacy.check f channel level = Some (Legacy.level_ge level l).
Proof.
  intros Hg. unfold Legacy.check.
  now rewrite (check_find_governs f k l (String.length channel) channel (le_n _) Hg).
Qed.

Lemma check_find_frame (f : Legacy.Filter) (c : string) (l : Legacy.LogLevel) :
  forall (fuel : nat) (d : string),
    ~ on_name_path c d ->
    Legacy.check_find fuel d (Legacy.rule c l f) = Legacy.check_find fuel d f.
Proof.
  induction fuel as [|fuel IH]; intros d Hd.
  - simpl. rewrite lookup_insert_ne; [reflexivity|]. intros ->. apply Hd. now left.
  - simpl. rewrite lookup_insert_ne by (intros ->; apply Hd; now left).
    destruct (Legacy.data f !! d); [reflexivity|].
    destruct d as [|a d]; [reflexivity|].
    change (Legacy.check_find fuel (parent_name (String a d)) (Legacy.rule c l f) =
            Legacy.check_find fuel (parent_name (String a d)) f).
    apply IH. intros H. apply Hd. apply on_name_path_parent; [discriminate | assumption].
Qed.

Lemma governs_rule (f : Legacy.Filter) (c d k : string) (l l' : Legacy.LogLevel) :
  Legacy.governs f d k l' -> (String.length c < String.length k)%nat ->
  Legacy.governs (Legacy.rule c l f) d k l'.
Proof.
  intros (Hk & Hl & Hno) Hlen. split; [assumption|]. split; simpl.
  - rewrite lookup_insert_ne; [assumption|]. intros ->. lia.
  - intros k' Hk' Hlt. rewrite lookup_insert_ne; [now apply Hno|]. intros ->. lia.
Qed.

(** X24. A new rule for a channel [c] can change the answer of [check]
    for a channel [d] only if [c] is [d] itself, a dotted prefix of [d]
    or the empty channel, and only if no rule of a longer name decides
    for [d]: the answer for [d] is what it was when [c] is none of
    these three, and also when [d] is decided by the rule of a name
    longer than [c] (so a new rule for the empty channel leaves every
    channel alone that a rule of a non-empty name decides). The new
    rule decides for [c] itself. *)
Theorem X24_filter_rule_frame (f : Legacy.Filter) (c d : string)
    (l level : Legacy.LogLevel) :
  (~ on_name_path c d ->
     Legacy.check (Legacy.rule c l f) d level = Legacy.check f d level) /\
  (forall k l', Legacy.governs f d k l' -> (String.length c < String.length k)%nat ->
     Legacy.check (Legacy.rule c l f) d level = Legacy.check f d level) /\
  Legacy.check (Legacy.rule c l f) c level = Some (Legacy.level_ge level l).
Proof.
  split; [|split].
  - intros Hd. unfold Legacy.check. now rewrite check_find_frame.
  - intros k l' Hg Hlen. unfold Legacy.check.
    rewrite (check_find_governs f k l' _ d (le_n _) Hg).
    now rewrite (check_find_governs _ k l' _ d (le_n _) (governs_rule f c d k l l' Hg Hlen)).
  - unfold Legacy.check. rewrite (check_find_here _ c _ l); [reflexivity|].
    simpl. apply lookup_insert_eq.
Qed.

(** ** Channel width *)

Lemma widen_bounds (k : string) (cw : nat) :
  (cw <= Legacy.widen k cw)%nat /\ (String.length k <= Legacy.widen k cw)%nat /\
  (Legacy.widen k cw = cw \/ Legacy.widen k cw = String.length k).
Proof.
  unfold Legacy.widen. destruct (Nat.ltb_spec cw (String.length k)); lia.
Qed.

(** X25. [Formatter::configure] never shrinks the channel width; the
    new width is at least the size of every channel that has a rule,
    and it is the old width or the size of one of these channels.
    Configuring again with the same filter changes nothing. *)
Theorem X25_configure_width (cw : nat) (f : Legacy.Filter) :
  (cw <= Legacy.configure cw f)%nat /\
  (forall k l, Legacy.data f !! k = Some l ->
     (String.length k <= Legacy.configure cw f)%nat) /\
  (Legacy.configure cw f = cw \/
   exists k, is_Some (Legacy.data f !! k) /\ Legacy.configure cw f = String.length k) /\
  Legacy.configure (Legacy.configure cw f) f = Legacy.configure cw f.
Proof.
  unfold Legacy.configure.
  assert (H : (cw <= map_fold (fun k _ r => Legacy.widen k r) cw (Legacy.data f))%nat /\
    (forall k l, Legacy.data f !! k = Some l ->
       (String.length k <= map_fold (fun k _ r => Legacy.widen k r) cw (Legacy.data f))%nat) /\
    (map_fold (fun k _ r => Legacy.widen k r) cw (Legacy.data f) = cw \/
     exists k, is_Some (Legacy.data f !! k) /\
       map_fold (fun k _ r => Legacy.widen k r) cw (Legacy.data f) = String.length k)).
  { apply (map_fold_weak_ind (fun r (m : gmap string Legacy.LogLevel) =>
      (cw <= r)%nat /\
      (forall k l, m !! k = Some l -> (String.length k <= r)%nat) /\
      (r = cw \/ exists k, is_Some (m !! k) /\ r = String.length k))).
    - split; [lia|]. split; [|now left]. intros k l Hk. now rewrite lookup_empty in Hk.
    - intros i x m r Hi (H1 & H2 & H3).
      destruct (widen_bounds i r) as (W1 & W2 & W3). split; [lia|]. split.
      + intros k l Hk. destruct (decide (k = i)) as [->|Hne]; [assumption|].
        rewrite lookup_insert_ne in Hk by congruence. specialize (H2 k l Hk). lia.
      + destruct W3 as [W3|W3]; rewrite W3.
        * destruct H3 as [H3|(k & Hk & H3)]; [now left|right].
          exists k. split; [|assumption].
          destruct (decide (k = i)) as [->|Hne].
          -- rewrite Hi in Hk. now destruct Hk.
          -- now rewrite lookup_insert_ne by congruence.
        * right. exists i. split; [|reflexivity]. rewrite lookup_insert_eq. eauto. }
  destruct H as (H1 & H2 & H3). split; [assumption|]. split; [assumption|].
  split; [assumption|].
  revert H2. generalize (map_fold (fun k _ r => Legacy.widen k r) cw (Legacy.data f)).
  intros r0.
  apply (map_fold_weak_ind (fun r (m : gmap string Legacy.LogLevel) =>
    (forall k l, m !! k = Some l -> (String.length k <= r0)%nat) -> r = r0)).
  - reflexivity.
  - intros i x m r Hi IH Hall.
    rewrite IH.
    + unfold Legacy.widen. specialize (Hall i x (lookup_insert_eq _ _ _)).
      destruct (Nat.ltb_spec r0 (String.length i)); [lia | reflexivity].
    + intros k l Hk. apply (Hall k l). rewrite lookup_insert_ne; [assumption|].
      intros ->. congruence.
Qed.

(** * Instances of the further properties *)

Lemma demo_public_reachable : public_reachable (P := posix) demo.
Proof.
  apply public_reachable_step with demo_sink.
  - apply public_reachable_step with demo_loggers.
    + apply public_reachable_step with initial_World; [apply public_reachable_initial|].
      apply pstep_getLogger with "app.net" 2%nat. vm_compute. reflexivity.
    + apply pstep_create.
  - apply pstep_addSink with 0%nat 0%nat; [vm_compute; lia | reflexivity].
Qed.

(** [attach_all] of valid sinks to a valid logger is a sequence of steps. *)
Lemma reachable_attach_all (ss : list sink_ptr) (l : logger_ptr) (w : World) :
  reachable (P := posix) w -> (l < length (objs w))%nat ->
  Forall (fun s => (s < length (sink_objs w))%nat) ss ->
  reachable (P := posix) (attach_all l ss w).
Proof.
  revert w. induction ss as [|s ss IH]; intros w Hw Hl Hss; [exact Hw|].
  apply Forall_cons in Hss as [Hs Hss].
  destruct (lookup_lt_is_Some_2 _ _ Hl) as [o Ho].
  unfold attach_all. simpl. fold (attach_all l ss (default w (addSink l s w))).
  assert (Ha : addSink l s w =
               Some (set_objs (<[l := with_sinks (sinks o ++ [s]) o]> (objs w)) w)).
  { unfold addSink. now rewrite Ho. }
  rewrite Ha. simpl. apply IH.
  - apply reachable_step with w; [exact Hw|]. now apply step_addSink with l s.
  - simpl. now rewrite length_insert.
  - exact Hss.
Qed.

Lemma demo_sinks_reachable : reachable (P := posix) demo_sinks.
Proof.
  apply reachable_step with (create (create demo).2).2.
  - apply reachable_step with (create demo).2.
    + apply reachable_step with demo; [apply demo_reachable | apply step_create].
    + apply step_create.
  - apply step_sink_setLevel with 2%nat FATAL. reflexivity.
Qed.

Lemma demo_multi_reachable : reachable (P := posix) demo_multi.
Proof.
  apply reachable_attach_all.
  - apply demo_sinks_reachable.
  - vm_compute. lia.
  - repeat (apply List.Forall_cons; [vm_compute; lia|]). apply List.Forall_nil.
Qed.

Lemma demo_multi_renders (e : basic_log_entry) (ss : list sink_ptr) :
  renders_all (P := posix) demo_multi e ss.
Proof.
  intros s _ o H _. destruct s as [|[|[|s]]]; vm_compute in H; try discriminate;
    injection H as <-; eexists; reflexivity.
Qed.

Lemma X1_witness :
  reachable (P := posix) demo_multi /\
  renders_all (P := posix) demo_multi demo_entry_app (chain_sinks demo_multi 1) /\
  objs demo_multi !! 1%nat = Some demo_app /\
  (let text := "ERROR - down" +:+ String LF "" in
   flat_map (rendered (P := posix) demo_multi demo_entry_app) (sinks demo_app) =
     [(0%nat, text); (1%nat, text); (0%nat, text); (1%nat, text)]) /\
  exists w' w1,
    logEntry (P := posix) 1 demo_entry_app demo_multi = Some w' /\
    log_sinks (P := posix) (sinks demo_app) demo_entry_app demo_multi = Some w1 /\
    emitted demo_multi w1 =
      flat_map (rendered (P := posix) demo_multi demo_entry_app) (sinks demo_app) /\
    exists wp, logEntry (P := posix) 0 demo_entry_app demo_multi = Some wp /\
               emitted demo_multi w' = emitted demo_multi w1 ++ emitted demo_multi wp.
Proof.
  split; [apply demo_multi_reachable|]. split; [apply demo_multi_renders|].
  split; [reflexivity|]. split; [reflexivity|].
  apply (X1_fanout_order (P := posix) demo_multi 1 demo_app demo_entry_app
           demo_multi_reachable (demo_multi_renders _ _) eq_refl).
Defined.

Lemma X2_witness :
  reachable (P := posix) demo_multi /\
  renders_all (P := posix) demo_multi demo_entry_app (chain_sinks demo_multi 1) /\
  (1 < length (objs demo_multi))%nat /\
  chain_sinks demo_multi 1 = [0; 1; 0; 1; 2; 0]%nat /\
  passes_floor demo_multi 0 ERR /\ ~ passes_floor demo_multi 2 ERR /\
  (exists w', logEntry (P := posix) 1 demo_entry_app demo_multi = Some w' /\
              writes_to 0 (emitted demo_multi w') = 3%nat) /\
  (exists w', logEntry (P := posix) 1 demo_entry_app demo_multi = Some w' /\
              writes_to 2 (emitted demo_multi w') = 0%nat).
Proof.
  assert (Hl : (1 < length (objs demo_multi))%nat) by (vm_compute; lia).
  assert (H0 : passes_floor demo_multi 0 ERR).
  { exists new_stream_sink. split; reflexivity. }
  assert (H2 : ~ passes_floor demo_multi 2 ERR).
  { intros (o & Ho & Hlv). vm_compute in Ho. injection Ho as <-. discriminate. }
  split; [apply demo_multi_reachable|]. split; [apply demo_multi_renders|].
  split; [exact Hl|]. split; [reflexivity|]. split; [exact H0|]. split; [exact H2|].
  split.
  - destruct (X2_fanout_multiplicity (P := posix) demo_multi 1 demo_entry_app 0
                demo_multi_reachable (demo_multi_renders _ _) Hl) as (w' & Hw' & Hin & _).
    exists w'. split; [exact Hw'|]. rewrite (Hin H0). reflexivity.
  - destruct (X2_fanout_multiplicity (P := posix) demo_multi 1 demo_entry_app 2
                demo_multi_reachable (demo_multi_renders _ _) Hl) as (w' & Hw' & _ & Hout).
    exists w'. split; [exact Hw'|]. exact (Hout H2).
Defined.

Lemma X3_witness :
  objs demo !! 0%nat = Some demo_root /\ (5%nat ∉ sinks demo_root) /\
  removeSink 0 5 demo = Some demo.
Proof.
  assert (H : 5%nat ∉ sinks demo_root).
  { simpl. intros H. apply list_elem_of_singleton in H. discriminate. }
  split; [reflexivity|]. split; [exact H|].
  apply (X3_removeSink_absent demo 0 demo_root 5 eq_refl H).
Defined.

Lemma X4_witness :
  objs demo_multi !! 1%nat = Some demo_app /\
  sinks demo_app = [0%nat] ++ 1%nat :: [0; 1; 2]%nat /\
  (1%nat ∉ [0%nat]) /\
  removeSink 1 1 demo_multi =
    Some (set_objs (<[1%nat := with_sinks ([0%nat] ++ [0; 1; 2]%nat) demo_app]>
                      (objs demo_multi)) demo_multi).
Proof.
  assert (H : 1%nat ∉ [0%nat]).
  { intros H. apply list_elem_of_singleton in H. discriminate. }
  split; [reflexivity|]. split; [reflexivity|]. split; [exact H|].
  apply (X4_removeSink_first demo_multi 1 demo_app 1 [0%nat] [0; 1; 2]%nat
           eq_refl eq_refl H).
Defined.

Lemma X5_witness :
  objs demo !! 1%nat = Some (new_logger "app" 0) /\
  (0%nat ∉ sinks (new_logger "app" 0)) /\
  exists w1, addSink 1 0 demo = Some w1 /\ removeSink 1 0 w1 = Some demo.
Proof.
  assert (H : 0%nat ∉ sinks (new_logger "app" 0)) by apply not_elem_of_nil.
  split; [reflexivity|]. split; [exact H|].
  apply (X5_addSink_removeSink demo 1 (new_logger "app" 0) 0 eq_refl H).
Defined.

Lemma X6_witness :
  exists w', reachable (P := posix) demo /\ setLevel 1 ERR demo = Some w' /\
    ERR <> INHERIT /\ getLevel 1 w' = Some ERR /\
    forall c oc, objs w' !! c = Some oc -> level oc = INHERIT -> parent oc = Some 1%nat ->
                 getLevel c w' = Some ERR.
Proof.
  eexists. split; [apply demo_reachable|]. split; [reflexivity|].
  split; [discriminate|].
  apply (X6_setLevel_concrete (P := posix) demo _ 1 ERR demo_reachable eq_refl).
  discriminate.
Defined.


Lemma X8_witness :
  reachable (P := posix) demo /\ "db" <> "" /\ loggers demo !! "db" = None /\
  exists a p w',
    getLogger "db" demo = Some (a, w') /\ objs demo !! a = None /\
    objs w' !! a = Some (new_logger "db" p) /\
    logger_of w' (parent_name "db") p /\
    getLevel a w' = getLevel p w' /\ chain_sinks w' a = chain_sinks w' p.
Proof.
  assert (Hne : "db" <> "") by discriminate.
  assert (Hnone : loggers demo !! "db" = None) by (vm_compute; reflexivity).
  split; [apply demo_reachable|]. split; [exact Hne|]. split; [exact Hnone|].
  apply (X8_getLogger_fresh (P := posix) "db" demo demo_reachable Hne Hnone).
Defined.

Lemma X9_witness :
  exists a w', reachable (P := posix) demo /\ getLogger "db" demo = Some (a, w') /\
    output w' = output demo /\ sink_objs w' = sink_objs demo /\
    (forall k b, loggers demo !! k = Some b -> loggers w' !! k = Some b) /\
    (forall r, root_logger demo = Some r -> root_logger w' = Some r) /\
    (forall b ob, objs demo !! b = Some ob ->
       objs w' !! b = Some ob /\ getLevel b w' = getLevel b demo).
Proof.
  eexists. eexists. split; [apply demo_reachable|].
  split; [vm_compute; reflexivity|].
  apply (X9_getLogger_frame (P := posix) "db" demo _ 3%nat demo_reachable).
  vm_compute. reflexivity.
Defined.

Lemma X10_witness :
  reachable (P := posix) demo /\ rtc (step (P := posix)) demo (create demo).2 /\
  keeps demo (create demo).2.
Proof.
  assert (H : rtc (step (P := posix)) demo (create demo).2).
  { apply rtc_once. apply step_create. }
  split; [apply demo_reachable|]. split; [exact H|].
  apply (X10_nothing_removed (P := posix) demo _ demo_reachable H).
Defined.

Lemma X12_witness :
  exists w', reachable (P := posix) demo /\ setLevel 0 OFF demo = Some w' /\
    trace (P := posix) 0 0 "m" log_context_default w' = Some w' /\
    debug (P := posix) 0 0 "m" log_context_default w' = Some w' /\
    info (P := posix) 0 0 "m" log_context_default w' = Some w' /\
    warn (P := posix) 0 0 "m" log_context_default w' = Some w' /\
    error (P := posix) 0 0 "m" log_context_default w' = Some w' /\
    fatal (P := posix) 0 0 "m" log_context_default w' = Some w'.
Proof.
  eexists. split; [apply demo_reachable|]. split; [reflexivity|].
  apply (X12_off_silences_methods (P := posix) demo _ 0 0 "m" log_context_default
           demo_reachable eq_refl).
Defined.

Lemma X13_witness :
  public_reachable (P := posix) demo /\
  sink_objs demo !! 0%nat = Some new_stream_sink /\
  sink_level new_stream_sink = ALL /\
  forall lvl, level_ge lvl (sink_level new_stream_sink) = true.
Proof.
  split; [apply demo_public_reachable|]. split; [reflexivity|].
  apply (X13_public_sinks_admit_all (P := posix) demo demo_public_reachable 0
           new_stream_sink eq_refl).
Defined.

Lemma X14_witness :
  sink_objs demo !! 0%nat = Some new_stream_sink /\
  exists w', setFormatter 0 documented_template demo = Some w' /\
    getFormatter 0 w' = Some documented_template /\
    (forall t, t <> 0%nat -> getFormatter t w' = getFormatter t demo) /\
    (forall e text, level_ge (entry_level e) (sink_level new_stream_sink) = true ->
       format (P := posix) documented_template (objs demo) e = Some text ->
       sink_log (P := posix) 0 e w' = Some (write 0 text w')).
Proof.
  split; [reflexivity|].
  apply (X14_setFormatter_getFormatter (P := posix) demo 0 new_stream_sink
           documented_template eq_refl).
Defined.

Lemma X16_witness :
  basic_field_stream (P := posix) Field.FileName 6 LEFT "."%char new_stringstream []
    demo_entry = None /\
  basic_field_stream (P := posix) Field.LoggerName 6 LEFT "."%char new_stringstream []
    demo_entry = None /\
  exists os',
    basic_field_stream (P := posix) Field.Message 6 LEFT "."%char new_stringstream []
      demo_entry = Some os' /\
    os_buf os' = "..down" /\
    exists t, field_text (P := posix) Field.Message [] demo_entry = Some t /\
      os_buf os' =
        os_buf new_stringstream +:+
        (replicate_char (Z.to_nat (6 - Z.of_nat (String.length t))) "."%char +:+ t) /\
      Z.of_nat (String.length (os_buf os')) =
        Z.of_nat (String.length (os_buf new_stringstream)) +
        Z.max 6 (Z.of_nat (String.length t)) /\
      os_width os' = 0 /\ os_fill os' = "."%char /\ os_adjust os' = adj_right.
Proof.
  split; [|split].
  - apply (X16_field_never_truncates (P := posix) Field.FileName 6 LEFT "."%char
             new_stringstream [] demo_entry).
    left. split; [reflexivity|]. apply rfind_None_iff. reflexivity.
  - apply (X16_field_never_truncates (P := posix) Field.LoggerName 6 LEFT "."%char
             new_stringstream [] demo_entry).
    right. split; reflexivity.
  - eexists. split; [reflexivity|]. split; [reflexivity|].
    apply (X16_field_never_truncates (P := posix) Field.Message 6 LEFT "."%char
             new_stringstream [] demo_entry). reflexivity.
Defined.

Lemma X20_witness :
  (N.of_nat (String.length "src/net/tcp.cpp") < Legacy.size_modulus)%N /\
  exists b, Legacy.basename "src/net/tcp.cpp" = Some b /\
    rfind b "/"%char = None /\
    (rfind "src/net/tcp.cpp" "/"%char = None -> b = "src/net/tcp.cpp") /\
    (rfind "src/net/tcp.cpp" "/"%char <> None ->
       exists d, "src/net/tcp.cpp" = d +:+ String "/"%char b).
Proof.
  assert (H : (N.of_nat (String.length "src/net/tcp.cpp") < Legacy.size_modulus)%N)
    by reflexivity.
  split; [exact H|]. apply (X20_basename "src/net/tcp.cpp" H).
Defined.

Lemma X21_witness :
  @win32 posix = false /\
  (N.of_nat (String.length (filename (mk_log_context "src/net/tcp.cpp" 7 "run")))
     < Legacy.size_modulus)%N /\
  exists b, Legacy.basename "src/net/tcp.cpp" = Some b /\
    basic_field_stream (P := posix) Field.FileName 0 RIGHT " "%char new_stringstream []
      (new_entry_msg 0 (mk_log_context "src/net/tcp.cpp" 7 "run") 0 INFO "m") =
      Some (put b (std_right (setfill " "%char (setw 0 new_stringstream)))).
Proof.
  split; [reflexivity|]. split; [reflexivity|].
  destruct (X21_filename_field_vs_basename (P := posix) 0 RIGHT " "%char new_stringstream []
              (new_entry_msg 0 (mk_log_context "src/net/tcp.cpp" 7 "run") 0 INFO "m")
              eq_refl eq_refl) as (b & Hb & Hs & _).
  exists b. split; [exact Hb|]. apply Hs. discriminate.
Defined.

Lemma demo_filter_governs :
  Legacy.governs demo_filter "a.b.c" "a" Legacy.LVL_DEBUG.
Proof.
  split; [|split].
  - right; left. now exists "b.c".
  - reflexivity.
  - intros k' Hk' Hlen.
    assert (Hcases : k' = "a.b.c" \/ k' = "a.b" \/ k' = "a" \/ k' = "").
    { destruct Hk' as [ -> | [H | -> ] ]; auto.
      apply dotted_prefix_parent in H as [ -> | H]; [auto|].
      change (parent_name "a.b.c") with "a.b" in H.
      apply dotted_prefix_parent in H as [ -> | H]; [auto|].
      change (parent_name "a.b") with "a" in H.
      apply dotted_prefix_parent in H as [ -> | H]; [auto|].
      change (parent_name "a") with "" in H.
      apply dotted_prefix_shorter in H. simpl in H. lia. }
    destruct Hcases as [ -> | [ -> | [ -> | -> ] ] ];
      try reflexivity; simpl in Hlen; lia.
Qed.

Lemma X23_witness :
  Legacy.governs demo_filter "a.b.c" "a" Legacy.LVL_DEBUG /\
  Legacy.check demo_filter "a.b.c" Legacy.LVL_INFO =
    Some (Legacy.level_ge Legacy.LVL_INFO Legacy.LVL_DEBUG).
Proof.
  split; [apply demo_filter_governs|].
  apply (X23_filter_nearest_rule demo_filter "a.b.c" "a" Legacy.LVL_DEBUG Legacy.LVL_INFO
           demo_filter_governs).
Defined.

Lemma X24_witness :
  Legacy.governs demo_filter "a.b.c" "a" Legacy.LVL_DEBUG /\
  (String.length "" < String.length "a")%nat /\ on_name_path "" "a.b.c" /\
  Legacy.check (Legacy.rule "" Legacy.LVL_OFF demo_filter) "a.b.c" Legacy.LVL_INFO =
    Legacy.check demo_filter "a.b.c" Legacy.LVL_INFO.
Proof.
  assert (Hlen : (String.length "" < String.length "a")%nat) by (simpl; lia).
  split; [apply demo_filter_governs|]. split; [exact Hlen|].
  split; [right; right; reflexivity|].
  apply (X24_filter_rule_frame demo_filter "" "a.b.c" Legacy.LVL_OFF Legacy.LVL_INFO)
    with "a" Legacy.LVL_DEBUG; [apply demo_filter_governs | exact Hlen].
Defined.

Lemma demo_blind_reachable : reachable (P := posix) demo_blind.
Proof.
  apply reachable_step with (attach_all 1 [1%nat] (create demo).2).
  - apply reachable_attach_all.
    + apply reachable_step with demo; [apply demo_reachable | apply step_create].
    + vm_compute. lia.
    + apply List.Forall_cons; [vm_compute; lia | apply List.Forall_nil].
  - apply step_setFormatter
      with 0%nat (basic_template_formatter [basic_field_default Field.FileName]).
    reflexivity.
Qed.

Lemma X26_witness :
  exists w', reachable (P := posix) demo_blind /\
    objs demo_blind !! 1%nat = Some demo_blind_app /\
    setAdditive 1 false demo_blind = Some w' /\
    renders_all (P := posix) w' demo_entry_app (sinks demo_blind_app) /\
    ~ renders (P := posix) w' demo_entry_app 0 /\
    logEntry (P := posix) 1 demo_entry_app demo_blind = None /\
    getAdditive 1 w' = Some false /\
    exists w'', logEntry (P := posix) 1 demo_entry_app w' = Some w'' /\
                emitted w' w'' =
                  flat_map (rendered (P := posix) w' demo_entry_app)
                    (sinks demo_blind_app).
Proof.
  assert (Hr : renders_all (P := posix)
                 (set_objs (<[1%nat := with_additive false demo_blind_app]>
                              (objs demo_blind)) demo_blind)
                 demo_entry_app (sinks demo_blind_app)).
  { intros s Hs o H _. apply list_elem_of_singleton in Hs as ->.
    vm_compute in H. injection H as <-. eexists. reflexivity. }
  eexists. split; [apply demo_blind_reachable|]. split; [reflexivity|].
  split; [reflexivity|]. split; [exact Hr|].
  split.
  { intros H. destruct (H _ eq_refl eq_refl) as [x Hx]. discriminate Hx. }
  split; [reflexivity|].
  apply (X26_setAdditive_false_cuts (P := posix) demo_blind _ 1 demo_blind_app
           demo_entry_app demo_blind_reachable eq_refl eq_refl Hr).
Defined.

